(** * High-level schema materialization (datamodel/high/3.0/schema.go)

    A shallow embedding of [NewSchema]: the synchronous copy of the scalar
    fields, and the goroutines it starts (one coordinator per composition
    slot, one child per slot element, one worker per property entry), as a
    transition system driven by an explicit schedule.  Unbuffered channels
    are rendezvous steps, the mutex is a flag with the deferred unlock as a
    step of its own, and the local slices and the shared property map are
    part of the state.  A slice that the caller reads without having taken
    its coordinator's signal is read in a race with the appends: the
    schedule then also decides what the caller reads. *)

From stdpp Require Import gmap strings list fin_maps pretty.
From Stdlib Require Import ZArith Lia Permutation.

Set Implicit Arguments.

(** ** The low-level reference types (package [lowmodel])

    Their declarations live in another package; the fields are those that
    schema.go reads and writes.  A [*yaml.Node] is an [option N]: [None] is
    the nil pointer. *)

Module NodeReference.
(** Modelled from the spec: [lowmodel.NodeReference], a value with the yaml
    nodes of its key and of its value. *)
Record t (N T : Type) := mk { Value : T; ValueNode : option N; KeyNode : option N }.
End NodeReference.

Module ValueReference.
(** Modelled from the spec: [lowmodel.ValueReference], a value with the yaml
    node it was read from. *)
Record t (N T : Type) := mk { Value : T; ValueNode : option N }.
End ValueReference.

Module KeyReference.
(** Modelled from the spec: [lowmodel.KeyReference], a key with the yaml
    node it was read from. *)
Record t (N T : Type) := mk { Value : T; KeyNode : option N }.
End KeyReference.

(** ** Collaborators outside this file

    The types and functions [NewSchema] uses from other packages.  [IsEmpty]
    is the method of [lowmodel.NodeReference]; its body is not part of this
    file, so it is a parameter here. *)

Class Collaborators := {
  yamlNode : Type;
  any : Type;
  lowSchemaProxy : Type;
  lowDiscriminator : Type;
  lowXML : Type;
  lowExternalDoc : Type;
  lowExtensions : Type;
  Discriminator : Type;
  XML : Type;
  ExternalDoc : Type;
  NewDiscriminator : lowDiscriminator -> Discriminator;
  NewXML : lowXML -> XML;
  NewExternalDoc : lowExternalDoc -> ExternalDoc;
  ExtractExtensions : lowExtensions -> gmap string any;
  IsEmpty : forall T : Type, NodeReference.t yamlNode T -> bool
}.

(** ** The low-level schema (package [low]), as [NewSchema] reads it *)

Module low.
Module Schema.
Section Fields.
Context `{Collaborators}.

(** Modelled from the spec: [low.Schema], with one reference per field that
    [NewSchema] reads: scalar fields through [Value], the required names and
    enum values as lists of value references, each composition slot as a
    list of references to child proxies, the properties as a Go map from key
    references to value references (here, the list of its entries, whose
    key references are pairwise distinct).  [UniqueItems] is the field that
    [NewSchema] never reads. *)
Record t := mk {
  Title : NodeReference.t yamlNode string;
  MultipleOf : NodeReference.t yamlNode Z;
  Maximum : NodeReference.t yamlNode Z;
  ExclusiveMaximum : NodeReference.t yamlNode Z;
  Minimum : NodeReference.t yamlNode Z;
  ExclusiveMinimum : NodeReference.t yamlNode Z;
  MaxLength : NodeReference.t yamlNode Z;
  MinLength : NodeReference.t yamlNode Z;
  Pattern : NodeReference.t yamlNode string;
  Format : NodeReference.t yamlNode string;
  MaxItems : NodeReference.t yamlNode Z;
  MinItems : NodeReference.t yamlNode Z;
  UniqueItems : NodeReference.t yamlNode Z;
  MaxProperties : NodeReference.t yamlNode Z;
  MinProperties : NodeReference.t yamlNode Z;
  Required : NodeReference.t yamlNode (list (ValueReference.t yamlNode string));
  Enum : NodeReference.t yamlNode (list (ValueReference.t yamlNode string));
  Type_ : NodeReference.t yamlNode string;
  AllOf : NodeReference.t yamlNode (list (ValueReference.t yamlNode lowSchemaProxy));
  OneOf : NodeReference.t yamlNode (list (ValueReference.t yamlNode lowSchemaProxy));
  AnyOf : NodeReference.t yamlNode (list (ValueReference.t yamlNode lowSchemaProxy));
  Not : NodeReference.t yamlNode (list (ValueReference.t yamlNode lowSchemaProxy));
  Items : NodeReference.t yamlNode (list (ValueReference.t yamlNode lowSchemaProxy));
  Properties : NodeReference.t yamlNode
    (list (KeyReference.t yamlNode string * ValueReference.t yamlNode lowSchemaProxy));
  AdditionalProperties : NodeReference.t yamlNode any;
  Description : NodeReference.t yamlNode string;
  Default : NodeReference.t yamlNode any;
  Nullable : NodeReference.t yamlNode bool;
  Discriminator : NodeReference.t yamlNode lowDiscriminator;
  ReadOnly : NodeReference.t yamlNode bool;
  WriteOnly : NodeReference.t yamlNode bool;
  XML : NodeReference.t yamlNode lowXML;
  ExternalDocs : NodeReference.t yamlNode lowExternalDoc;
  Example : NodeReference.t yamlNode any;
  Deprecated : NodeReference.t yamlNode bool;
  Extensions : lowExtensions
}.

End Fields.
End Schema.
End low.

(** ** The proxy and the high-level schema (package [v3]) *)

Module SchemaProxy.
Section Fields.
Context `{Collaborators}.

(** Modelled from the spec: [v3.SchemaProxy], a handle on one low-level
    reference; nothing is built from the reference when it is wrapped. *)
Record t := mk { schema : NodeReference.t yamlNode lowSchemaProxy }.

End Fields.
End SchemaProxy.

Module Schema.
Section Fields.
Context `{Collaborators}.

Record t := mk {
  Title : string;
  MultipleOf : Z;
  Maximum : Z;
  ExclusiveMaximum : Z;
  Minimum : Z;
  ExclusiveMinimum : Z;
  MaxLength : Z;
  MinLength : Z;
  Pattern : string;
  Format : string;
  MaxItems : Z;
  MinItems : Z;
  UniqueItems : Z;
  MaxProperties : Z;
  MinProperties : Z;
  Required : list string;
  Enum : list string;
  Type_ : string;
  AllOf : list SchemaProxy.t;
  OneOf : list SchemaProxy.t;
  AnyOf : list SchemaProxy.t;
  Not : list SchemaProxy.t;
  Items : list SchemaProxy.t;
  Properties : gmap string SchemaProxy.t;
  AdditionalProperties : any;
  Description : string;
  Default : any;
  Nullable : bool;
  Discriminator : option Discriminator;
  ReadOnly : bool;
  WriteOnly : bool;
  XML : option XML;
  ExternalDocs : option ExternalDoc;
  Example : any;
  Deprecated : bool;
  Extensions : gmap string any;
  low : low.Schema.t
}.

(** Field assignments made after the value is allocated. *)

Definition set_AllOf (v : list SchemaProxy.t) (s : t) : t :=
  let '(mk a1 a2 a3 a4 a5 a6 a7 a8 a9 a10 a11 a12 a13 a14 a15 a16 a17 a18 _ a20
           a21 a22 a23 a24 a25 a26 a27 a28 a29 a30 a31 a32 a33 a34 a35 a36 a37) := s in
  mk a1 a2 a3 a4 a5 a6 a7 a8 a9 a10 a11 a12 a13 a14 a15 a16 a17 a18 v a20
     a21 a22 a23 a24 a25 a26 a27 a28 a29 a30 a31 a32 a33 a34 a35 a36 a37.

Definition set_OneOf (v : list SchemaProxy.t) (s : t) : t :=
  let '(mk a1 a2 a3 a4 a5 a6 a7 a8 a9 a10 a11 a12 a13 a14 a15 a16 a17 a18 a19 _
           a21 a22 a23 a24 a25 a26 a27 a28 a29 a30 a31 a32 a33 a34 a35 a36 a37) := s in
  mk a1 a2 a3 a4 a5 a6 a7 a8 a9 a10 a11 a12 a13 a14 a15 a16 a17 a18 a19 v
     a21 a22 a23 a24 a25 a26 a27 a28 a29 a30 a31 a32 a33 a34 a35 a36 a37.

Definition set_AnyOf (v : list SchemaProxy.t) (s : t) : t :=
  let '(mk a1 a2 a3 a4 a5 a6 a7 a8 a9 a10 a11 a12 a13 a14 a15 a16 a17 a18 a19 a20
           _ a22 a23 a24 a25 a26 a27 a28 a29 a30 a31 a32 a33 a34 a35 a36 a37) := s in
  mk a1 a2 a3 a4 a5 a6 a7 a8 a9 a10 a11 a12 a13 a14 a15 a16 a17 a18 a19 a20
     v a22 a23 a24 a25 a26 a27 a28 a29 a30 a31 a32 a33 a34 a35 a36 a37.

Definition set_Not (v : list SchemaProxy.t) (s : t) : t :=
  let '(mk a1 a2 a3 a4 a5 a6 a7 a8 a9 a10 a11 a12 a13 a14 a15 a16 a17 a18 a19 a20
           a21 _ a23 a24 a25 a26 a27 a28 a29 a30 a31 a32 a33 a34 a35 a36 a37) := s in
  mk a1 a2 a3 a4 a5 a6 a7 a8 a9 a10 a11 a12 a13 a14 a15 a16 a17 a18 a19 a20
     a21 v a23 a24 a25 a26 a27 a28 a29 a30 a31 a32 a33 a34 a35 a36 a37.

Definition set_Items (v : list SchemaProxy.t) (s : t) : t :=
  let '(mk a1 a2 a3 a4 a5 a6 a7 a8 a9 a10 a11 a12 a13 a14 a15 a16 a17 a18 a19 a20
           a21 a22 _ a24 a25 a26 a27 a28 a29 a30 a31 a32 a33 a34 a35 a36 a37) := s in
  mk a1 a2 a3 a4 a5 a6 a7 a8 a9 a10 a11 a12 a13 a14 a15 a16 a17 a18 a19 a20
     a21 a22 v a24 a25 a26 a27 a28 a29 a30 a31 a32 a33 a34 a35 a36 a37.

Definition set_Properties (v : gmap string SchemaProxy.t) (s : t) : t :=
  let '(mk a1 a2 a3 a4 a5 a6 a7 a8 a9 a10 a11 a12 a13 a14 a15 a16 a17 a18 a19 a20
           a21 a22 a23 _ a25 a26 a27 a28 a29 a30 a31 a32 a33 a34 a35 a36 a37) := s in
  mk a1 a2 a3 a4 a5 a6 a7 a8 a9 a10 a11 a12 a13 a14 a15 a16 a17 a18 a19 a20
     a21 a22 a23 v a25 a26 a27 a28 a29 a30 a31 a32 a33 a34 a35 a36 a37.

End Fields.
End Schema.

(** ** NewSchema *)

Section Materialize.
Context `{Collaborators}.

Notation "'ChildRef'" := (ValueReference.t yamlNode lowSchemaProxy).
Notation "'KeyRef'" := (KeyReference.t yamlNode string).

(** The five composition slots, and one cell per slot: the local slices
    [allOf], [oneOf], [anyOf], [not], [items] of the source, and likewise
    the state of each slot's coordinator. *)

Inductive Slot := SlotAllOf | SlotOneOf | SlotAnyOf | SlotNot | SlotItems.

Record Slots (A : Type) := mkSlots {
  allOf : A; oneOf : A; anyOf : A; not_ : A; items : A
}.

Definition slot_get {A} (sl : Slot) (v : Slots A) : A :=
  match sl with
  | SlotAllOf => allOf v
  | SlotOneOf => oneOf v
  | SlotAnyOf => anyOf v
  | SlotNot => not_ v
  | SlotItems => items v
  end.

Definition slot_set {A} (sl : Slot) (x : A) (v : Slots A) : Slots A :=
  match sl with
  | SlotAllOf => mkSlots x (oneOf v) (anyOf v) (not_ v) (items v)
  | SlotOneOf => mkSlots (allOf v) x (anyOf v) (not_ v) (items v)
  | SlotAnyOf => mkSlots (allOf v) (oneOf v) x (not_ v) (items v)
  | SlotNot => mkSlots (allOf v) (oneOf v) (anyOf v) x (items v)
  | SlotItems => mkSlots (allOf v) (oneOf v) (anyOf v) (not_ v) x
  end.

Definition slot_ref (sl : Slot) (schema : low.Schema.t)
  : NodeReference.t yamlNode (list ChildRef) :=
  match sl with
  | SlotAllOf => low.Schema.AllOf schema
  | SlotOneOf => low.Schema.OneOf schema
  | SlotAnyOf => low.Schema.AnyOf schema
  | SlotNot => low.Schema.Not schema
  | SlotItems => low.Schema.Items schema
  end.

Definition slot_in (sl : Slot) (schema : low.Schema.t) : list ChildRef :=
  NodeReference.Value (slot_ref sl schema).

Definition slot_out (sl : Slot) (s : Schema.t) : list SchemaProxy.t :=
  match sl with
  | SlotAllOf => Schema.AllOf s
  | SlotOneOf => Schema.OneOf s
  | SlotAnyOf => Schema.AnyOf s
  | SlotNot => Schema.Not s
  | SlotItems => Schema.Items s
  end.

(** *** The synchronous part (lines 54-99) *)

(** [var req []string; for i := range l { req = append(req, l[i].Value) }] *)
Definition flatten (l : list (ValueReference.t yamlNode string)) : list string :=
  fold_left (fun req r => req ++ [ValueReference.Value r]) l [].

(** The value [s] when the last synchronous assignment is done: no goroutine
    has been started, the composition fields and [Properties] are still nil,
    and [UniqueItems] has never been assigned. *)
Definition NewSchema_sync (schema : low.Schema.t) : Schema.t :=
  {| Schema.Title := NodeReference.Value (low.Schema.Title schema);
     Schema.MultipleOf := NodeReference.Value (low.Schema.MultipleOf schema);
     Schema.Maximum := NodeReference.Value (low.Schema.Maximum schema);
     Schema.ExclusiveMaximum := NodeReference.Value (low.Schema.ExclusiveMaximum schema);
     Schema.Minimum := NodeReference.Value (low.Schema.Minimum schema);
     Schema.ExclusiveMinimum := NodeReference.Value (low.Schema.ExclusiveMinimum schema);
     Schema.MaxLength := NodeReference.Value (low.Schema.MaxLength schema);
     Schema.MinLength := NodeReference.Value (low.Schema.MinLength schema);
     Schema.Pattern := NodeReference.Value (low.Schema.Pattern schema);
     Schema.Format := NodeReference.Value (low.Schema.Format schema);
     Schema.MaxItems := NodeReference.Value (low.Schema.MaxItems schema);
     Schema.MinItems := NodeReference.Value (low.Schema.MinItems schema);
     Schema.UniqueItems := 0%Z;
     Schema.MaxProperties := NodeReference.Value (low.Schema.MaxProperties schema);
     Schema.MinProperties := NodeReference.Value (low.Schema.MinProperties schema);
     Schema.Required := flatten (NodeReference.Value (low.Schema.Required schema));
     Schema.Enum := flatten (NodeReference.Value (low.Schema.Enum schema));
     Schema.Type_ := NodeReference.Value (low.Schema.Type_ schema);
     Schema.AllOf := [];
     Schema.OneOf := [];
     Schema.AnyOf := [];
     Schema.Not := [];
     Schema.Items := [];
     Schema.Properties := ∅;
     Schema.AdditionalProperties :=
       NodeReference.Value (low.Schema.AdditionalProperties schema);
     Schema.Description := NodeReference.Value (low.Schema.Description schema);
     Schema.Default := NodeReference.Value (low.Schema.Default schema);
     Schema.Nullable := NodeReference.Value (low.Schema.Nullable schema);
     Schema.Discriminator :=
       if IsEmpty (low.Schema.Discriminator schema) then None
       else Some (NewDiscriminator (NodeReference.Value (low.Schema.Discriminator schema)));
     Schema.ReadOnly := NodeReference.Value (low.Schema.ReadOnly schema);
     Schema.WriteOnly := NodeReference.Value (low.Schema.WriteOnly schema);
     Schema.XML :=
       if IsEmpty (low.Schema.XML schema) then None
       else Some (NewXML (NodeReference.Value (low.Schema.XML schema)));
     Schema.ExternalDocs :=
       if IsEmpty (low.Schema.ExternalDocs schema) then None
       else Some (NewExternalDoc (NodeReference.Value (low.Schema.ExternalDocs schema)));
     Schema.Example := NodeReference.Value (low.Schema.Example schema);
     Schema.Deprecated := NodeReference.Value (low.Schema.Deprecated schema);
     Schema.Extensions := ExtractExtensions (low.Schema.Extensions schema);
     Schema.low := schema |}.

(** *** The goroutines (lines 106-201)

    Granularity of the steps.  The [go] statements do not block and touch
    no shared data, so the caller runs them, and the two totals after them,
    in one step.  A coordinator's receive and the append that follows are
    one step.  The slice is read by the caller alone, in the trailing
    assignments: when the caller has taken the coordinator's signal, every
    append is ordered before that read, and the read is the step [Assign];
    when it has not, nothing orders the read with the appends, and the read
    may also yield a slice header that the coordinator never wrote (step
    [RacyAssign]).  A worker takes the lock, writes its entry and assigns
    [s.Properties] in one step: the lock keeps the other workers out and the
    caller does not read the map.  A send on an unbuffered channel and the
    matching receive are one step of both goroutines.  The deferred
    [plock.Unlock()] of a worker runs when its send is over, in a step of
    its own that nothing orders with the caller.  [s.Properties] and
    [props] are the same Go map; every write to it is followed, under the
    lock, by the assignment of the field, so the field is kept as a copy
    that each write refreshes. *)

(** What [buildSchemaChild] sends on [bChan]. *)
Definition buildSchemaChild (sch : ChildRef) : SchemaProxy.t :=
  SchemaProxy.mk
    {| NodeReference.Value := ValueReference.Value sch;
       NodeReference.ValueNode := ValueReference.ValueNode sch;
       NodeReference.KeyNode := None |}.

(** What [buildProps] stores under [k.Value]. *)
Definition buildProps_proxy (k : KeyRef) (v : ChildRef) : SchemaProxy.t :=
  SchemaProxy.mk
    {| NodeReference.Value := ValueReference.Value v;
       NodeReference.ValueNode := ValueReference.ValueNode v;
       NodeReference.KeyNode := KeyReference.KeyNode k |}.

(** One [buildOutSchema] goroutine.  [bChan] holds the payloads of the
    children blocked on [bChan <- p]: every child is started before the
    first receive and does nothing but build [p] and send it.  [signalled]
    says that [doneChan <- true] has been taken. *)
Record Coordinator := mkCoordinator {
  totalSchemas : nat;
  j : nat;
  bChan : list SchemaProxy.t;
  signalled : bool
}.

(** One [buildProps] goroutine: started; then holding [plock] with its entry
    written and blocked on [c <- true]; then past the send, still holding
    [plock], with the deferred [plock.Unlock()] to run; then returned. *)
Inductive PropStatus := PropStarted | PropSending | PropSent | PropReturned.

Record PropWorker := mkPropWorker {
  prop_k : KeyRef;
  prop_v : ChildRef;
  prop_status : PropStatus
}.

(** Where the calling goroutine is: before the [go] statements, in the
    [allDone] loop with its two counters, at one of the five trailing
    assignments, or returned. *)
Inductive MainPc :=
| AtLaunch
| AtBarrier (completeChildren completedProps : nat)
| AtAssign (n : nat)
| AtReturn.

Record State := mkState {
  pc : MainPc;
  s : Schema.t;
  locals : Slots (list SchemaProxy.t);
  coords : Slots (option Coordinator);
  props : gmap string SchemaProxy.t;
  plock : bool;
  workers : list PropWorker
}.

Definition totalProps (schema : low.Schema.t) : nat :=
  length (NodeReference.Value (low.Schema.Properties schema)).

Definition totalChildren (schema : low.Schema.t) : nat :=
  length (NodeReference.Value (low.Schema.AllOf schema))
  + length (NodeReference.Value (low.Schema.OneOf schema))
  + length (NodeReference.Value (low.Schema.AnyOf schema))
  + length (NodeReference.Value (low.Schema.Items schema))
  + length (NodeReference.Value (low.Schema.Not schema)).

(** [if !r.IsEmpty() { go buildOutSchema(r.Value, ...) }] *)
Definition startCoordinator (r : NodeReference.t yamlNode (list ChildRef))
  : option Coordinator :=
  if IsEmpty r then None
  else Some {| totalSchemas := length (NodeReference.Value r);
               j := 0;
               bChan := map buildSchemaChild (NodeReference.Value r);
               signalled := false |}.

Definition startWorker (kv : KeyRef * ChildRef) : PropWorker :=
  {| prop_k := fst kv; prop_v := snd kv; prop_status := PropStarted |}.

(** The test made after each receive in the [allDone] loop. *)
Definition allDone (schema : low.Schema.t) (completeChildren completedProps : nat) : bool :=
  (totalProps schema =? completedProps) && (totalChildren schema =? completeChildren).

Definition afterReceive (schema : low.Schema.t) (completeChildren completedProps : nat)
  : MainPc :=
  if allDone schema completeChildren completedProps then AtAssign 0
  else AtBarrier completeChildren completedProps.

Definition init (schema : low.Schema.t) : State :=
  {| pc := AtLaunch;
     s := NewSchema_sync schema;
     locals := mkSlots [] [] [] [] [];
     coords := mkSlots None None None None None;
     props := ∅;
     plock := false;
     workers := [] |}.

(** The trailing assignments, in source order: [s.OneOf], [s.AnyOf],
    [s.AllOf], [s.Items], [s.Not]. *)
Definition assigned (n : nat) : Slot :=
  match n with
  | 0 => SlotOneOf
  | 1 => SlotAnyOf
  | 2 => SlotAllOf
  | 3 => SlotItems
  | _ => SlotNot
  end.

(** A coordinator whose appends (line 132) nothing orders with the caller:
    it has elements to append and the caller has not taken its signal.  The
    send on line 135 follows every append and is what the caller's receive
    on line 189 synchronises with. *)
Definition unordered (c : option Coordinator) : bool :=
  match c with
  | Some c => negb (signalled c) && (0 <? totalSchemas c)
  | None => false
  end.

(** The scheduler's choices.  [Recv sl n]: the coordinator of [sl] receives
    from the [n]-th child blocked on its [bChan].  [Signal sl]: the
    coordinator of [sl] and the caller meet on [polyCompletedChan].
    [Lock n]: property worker [n] takes [plock] and runs up to its send.
    [PropSignal n]: worker [n] and the caller meet on [propsChan].
    [Unlock n]: worker [n] runs its deferred [plock.Unlock()].  [Assign]:
    the caller's next trailing assignment, reading the slice as the
    coordinator left it after one of its appends.  [RacyAssign v]: the same
    assignment when the read races with the appends and yields [v]. *)
Inductive Action :=
| Launch
| Recv (sl : Slot) (n : nat)
| Signal (sl : Slot)
| Lock (n : nat)
| PropSignal (n : nat)
| Assign
| Unlock (n : nat)
| RacyAssign (v : list SchemaProxy.t).

Definition step (schema : low.Schema.t) (a : Action) (st : State) : option State :=
  match a with
  | Launch =>
      (* lines 154-185: every [go] statement, then the totals and the test
         [totalProps+totalChildren > 0]; none of it blocks *)
      match pc st with
      | AtLaunch =>
          Some {| pc := if 0 <? totalProps schema + totalChildren schema
                        then AtBarrier 0 0 else AtAssign 0;
                  s := s st;
                  locals := locals st;
                  coords := mkSlots (startCoordinator (low.Schema.AllOf schema))
                                    (startCoordinator (low.Schema.OneOf schema))
                                    (startCoordinator (low.Schema.AnyOf schema))
                                    (startCoordinator (low.Schema.Not schema))
                                    (startCoordinator (low.Schema.Items schema));
                  props := props st;
                  plock := plock st;
                  workers := map startWorker
                               (NodeReference.Value (low.Schema.Properties schema)) |}
      | _ => None
      end
  | Recv sl n =>
      (* lines 128-133: [case t := <-bChan], then [j++] and the append of
         [t] to the slice behind [items]; the sender is the [n]-th child
         blocked on line 121 *)
      match slot_get sl (coords st) with
      | Some c =>
          if j c <? totalSchemas c then
            match bChan c !! n with
            | Some t =>
                Some {| pc := pc st;
                        s := s st;
                        locals := slot_set sl (slot_get sl (locals st) ++ [t]) (locals st);
                        coords := slot_set sl
                                    (Some {| totalSchemas := totalSchemas c;
                                             j := S (j c);
                                             bChan := delete n (bChan c);
                                             signalled := signalled c |})
                                    (coords st);
                        props := props st;
                        plock := plock st;
                        workers := workers st |}
            | None => None
            end
          else None
      | None => None
      end
  | Signal sl =>
      (* line 135 meets lines 189-193: [doneChan <- true] of a coordinator
         whose loop is over, and [case <-polyCompletedChan] of the caller *)
      match slot_get sl (coords st), pc st with
      | Some c, AtBarrier completeChildren completedProps =>
          if (j c <? totalSchemas c) || signalled c then None
          else
            Some {| pc := afterReceive schema (S completeChildren) completedProps;
                    s := s st;
                    locals := locals st;
                    coords := slot_set sl
                                (Some {| totalSchemas := totalSchemas c;
                                         j := j c;
                                         bChan := bChan c;
                                         signalled := true |})
                                (coords st);
                    props := props st;
                    plock := plock st;
                    workers := workers st |}
      | _, _ => None
      end
  | Lock n =>
      (* lines 142-150: [plock.Lock()], the write into the shared map and
         [s.Properties = props]; the worker then blocks on line 151 with
         the lock held *)
      if plock st then None
      else
        match workers st !! n with
        | Some w =>
            match prop_status w with
            | PropStarted =>
                let props' :=
                  <[KeyReference.Value (prop_k w) := buildProps_proxy (prop_k w) (prop_v w)]>
                    (props st) in
                Some {| pc := pc st;
                        s := Schema.set_Properties props' (s st);
                        locals := locals st;
                        coords := coords st;
                        props := props';
                        plock := true;
                        workers := <[n := {| prop_k := prop_k w; prop_v := prop_v w;
                                             prop_status := PropSending |}]> (workers st) |}
            | _ => None
            end
        | None => None
        end
  | PropSignal n =>
      (* line 151 meets lines 194-198: [c <- true] of a worker and
         [case <-propsChan] of the caller; the worker still holds [plock] *)
      match workers st !! n, pc st with
      | Some w, AtBarrier completeChildren completedProps =>
          match prop_status w with
          | PropSending =>
              Some {| pc := afterReceive schema completeChildren (S completedProps);
                      s := s st;
                      locals := locals st;
                      coords := coords st;
                      props := props st;
                      plock := plock st;
                      workers := <[n := {| prop_k := prop_k w; prop_v := prop_v w;
                                           prop_status := PropSent |}]> (workers st) |}
          | _ => None
          end
      | _, _ => None
      end
  | Unlock n =>
      (* line 142, run when line 151 is over: the deferred [plock.Unlock()]
         of a worker whose send has been taken; the worker then returns *)
      match workers st !! n with
      | Some w =>
          match prop_status w with
          | PropSent =>
              Some {| pc := pc st;
                      s := s st;
                      locals := locals st;
                      coords := coords st;
                      props := props st;
                      plock := false;
                      workers := <[n := {| prop_k := prop_k w; prop_v := prop_v w;
                                           prop_status := PropReturned |}]> (workers st) |}
          | _ => None
          end
      | None => None
      end
  | Assign =>
      (* lines 202-208: the five assignments, in source order, and [return s] *)
      match pc st with
      | AtAssign n =>
          let '(s', pc') :=
            match n with
            | 0 => (Schema.set_OneOf (oneOf (locals st)) (s st), AtAssign 1)
            | 1 => (Schema.set_AnyOf (anyOf (locals st)) (s st), AtAssign 2)
            | 2 => (Schema.set_AllOf (allOf (locals st)) (s st), AtAssign 3)
            | 3 => (Schema.set_Items (items (locals st)) (s st), AtAssign 4)
            | _ => (Schema.set_Not (not_ (locals st)) (s st), AtReturn)
            end in
          Some {| pc := pc';
                  s := s';
                  locals := locals st;
                  coords := coords st;
                  props := props st;
                  plock := plock st;
                  workers := workers st |}
      | _ => None
      end
  | RacyAssign v =>
      (* lines 202-206 again, for a slice whose coordinator may append to it
         (line 132) with nothing ordering the append and this read: the
         slice header read is [v], whatever the coordinator wrote *)
      match pc st with
      | AtAssign n =>
          if unordered (slot_get (assigned n) (coords st)) then
            let '(s', pc') :=
              match n with
              | 0 => (Schema.set_OneOf v (s st), AtAssign 1)
              | 1 => (Schema.set_AnyOf v (s st), AtAssign 2)
              | 2 => (Schema.set_AllOf v (s st), AtAssign 3)
              | 3 => (Schema.set_Items v (s st), AtAssign 4)
              | _ => (Schema.set_Not v (s st), AtReturn)
              end in
            Some {| pc := pc';
                    s := s';
                    locals := locals st;
                    coords := coords st;
                    props := props st;
                    plock := plock st;
                    workers := workers st |}
          else None
      | _ => None
      end
  end.

Fixpoint run (schema : low.Schema.t) (sched : list Action) (st : State) : option State :=
  match sched with
  | [] => Some st
  | a :: sched' =>
      match step schema a st with
      | Some st' => run schema sched' st'
      | None => None
      end
  end.

(** [NewSchema schema] under a schedule: the value it returns, if the
    schedule takes the caller to its [return]. *)
Definition NewSchema (schema : low.Schema.t) (sched : list Action) : option Schema.t :=
  match run schema sched (init schema) with
  | Some st => match pc st with AtReturn => Some (s st) | _ => None end
  | None => None
  end.

(** [func (s *Schema) GoLow() *low.Schema] (lines 211-213) *)
Definition GoLow (v : Schema.t) : low.Schema.t := Schema.low v.

End Materialize.

(** * Concrete nodes *)

(** Collaborators for concrete nodes: yaml nodes are numbered, low-level
    proxies are named, and a reference is empty when both its nodes are
    nil. *)
Definition nil_nodes : Collaborators :=
  {| yamlNode := nat;
     any := string;
     lowSchemaProxy := string;
     lowDiscriminator := unit;
     lowXML := unit;
     lowExternalDoc := unit;
     lowExtensions := unit;
     Discriminator := unit;
     XML := unit;
     ExternalDoc := unit;
     NewDiscriminator := fun d => d;
     NewXML := fun x => x;
     NewExternalDoc := fun e => e;
     ExtractExtensions := fun _ => ∅;
     IsEmpty := fun T r =>
       match NodeReference.KeyNode r, NodeReference.ValueNode r with
       | None, None => true
       | _, _ => false
       end |}.

Section Scenarios.

#[local] Existing Instance nil_nodes.

Definition absent {T} (v : T) : NodeReference.t nat T := NodeReference.mk v None None.

Definition present {T} (v : T) : NodeReference.t nat T :=
  NodeReference.mk v (Some 1) (Some 2).

Definition child (name : string) : ValueReference.t nat string :=
  ValueReference.mk name (Some 3).

Definition slot_of (names : list string)
  : NodeReference.t nat (list (ValueReference.t nat string)) :=
  match names with
  | [] => absent []
  | _ => present (map child names)
  end.

Definition property (kv : string * string)
  : KeyReference.t nat string * ValueReference.t nat string :=
  (KeyReference.mk (fst kv) (Some 4), child (snd kv)).

(** A node with the given composition slots and properties, and fixed
    scalar fields; its own [UniqueItems] is 10. *)
Definition node_with
    (allOf oneOf anyOf not items : NodeReference.t nat (list (ValueReference.t nat string)))
    (props : list (string * string)) : low.Schema.t :=
  {| low.Schema.Title := present "T"%string;
     low.Schema.MultipleOf := present 1%Z;
     low.Schema.Maximum := present 2%Z;
     low.Schema.ExclusiveMaximum := present 3%Z;
     low.Schema.Minimum := present 4%Z;
     low.Schema.ExclusiveMinimum := present 5%Z;
     low.Schema.MaxLength := present 6%Z;
     low.Schema.MinLength := present 7%Z;
     low.Schema.Pattern := present "p"%string;
     low.Schema.Format := present "f"%string;
     low.Schema.MaxItems := present 8%Z;
     low.Schema.MinItems := present 9%Z;
     low.Schema.UniqueItems := present 10%Z;
     low.Schema.MaxProperties := present 11%Z;
     low.Schema.MinProperties := present 12%Z;
     low.Schema.Required := present [ValueReference.mk "a"%string (Some 5);
                                     ValueReference.mk "b"%string (Some 6)];
     low.Schema.Enum := present [ValueReference.mk "e"%string (Some 7)];
     low.Schema.Type_ := present "object"%string;
     low.Schema.AllOf := allOf;
     low.Schema.OneOf := oneOf;
     low.Schema.AnyOf := anyOf;
     low.Schema.Not := not;
     low.Schema.Items := items;
     low.Schema.Properties :=
       match props with [] => absent [] | _ => present (map property props) end;
     low.Schema.AdditionalProperties := present "ap"%string;
     low.Schema.Description := present "d"%string;
     low.Schema.Default := present "df"%string;
     low.Schema.Nullable := present true;
     low.Schema.Discriminator := absent tt;
     low.Schema.ReadOnly := present true;
     low.Schema.WriteOnly := present false;
     low.Schema.XML := absent tt;
     low.Schema.ExternalDocs := present tt;
     low.Schema.Example := present "ex"%string;
     low.Schema.Deprecated := present true;
     low.Schema.Extensions := tt |}.

(** The same, each slot present exactly when it is given elements. *)
Definition node_of (allOf oneOf anyOf not items : list string)
    (props : list (string * string)) : low.Schema.t :=
  node_with (slot_of allOf) (slot_of oneOf) (slot_of anyOf) (slot_of not) (slot_of items)
            props.

(** [AllOf = [A, B]] and nothing else. *)
Definition two_allOf : low.Schema.t := node_of ["A"; "B"]%string [] [] [] [] [].

(** One element in [AllOf] and in [AnyOf], two properties. *)
Definition singles : low.Schema.t :=
  node_of ["A"]%string [] ["C"]%string [] [] [("x", "X"); ("y", "Y")]%string.

Definition singles_sched : list Action :=
  [Launch; Recv SlotAllOf 0; Lock 1; Signal SlotAllOf; PropSignal 1; Recv SlotAnyOf 0;
   Unlock 1; Lock 0; PropSignal 0; Unlock 0; Signal SlotAnyOf;
   Assign; Assign; Assign; Assign; Assign].

Definition singles_sched' : list Action :=
  [Launch; Lock 0; Recv SlotAnyOf 0; Signal SlotAnyOf; PropSignal 0; Unlock 0; Lock 1;
   Recv SlotAllOf 0; Signal SlotAllOf; PropSignal 1; Unlock 1;
   Assign; Assign; Assign; Assign; Assign].

(** The same as [singles_sched'], the caller returning before the last
    worker has run its deferred unlock. *)
Definition singles_early : list Action :=
  [Launch; Lock 0; Recv SlotAnyOf 0; Signal SlotAnyOf; PropSignal 0; Unlock 0; Lock 1;
   Recv SlotAllOf 0; Signal SlotAllOf; PropSignal 1;
   Assign; Assign; Assign; Assign; Assign].

(** No composition element, no property. *)
Definition bare : low.Schema.t := node_of [] [] [] [] [] [].

(** Five elements in every slot and a thousand properties. *)
Definition five : list string := ["A"; "B"; "C"; "D"; "E"]%string.

Definition thousand : list (string * string) :=
  map (fun i : nat => (pretty i, pretty i)) (seq 0 1000).

Definition crowded : low.Schema.t := node_of five five five five five thousand.

(** [AllOf = [A]], and an [AnyOf] that is present and holds no element. *)
Definition hollow : low.Schema.t :=
  node_with (present [child "A"%string]) (absent []) (present []) (absent []) (absent []) [].

(** The caller of [hollow] leaves the loop on the signal of the coordinator
    of [AnyOf], the coordinator of [AllOf] not having run yet. *)
Definition hollow_early : list Action :=
  [Launch; Signal SlotAnyOf; Assign; Assign; Assign; Assign; Assign].

(** The coordinator of [AllOf] receives its child and signals; the caller
    leaves the loop on that signal. *)
Definition hollow_late : list Action :=
  [Launch; Recv SlotAllOf 0; Signal SlotAllOf; Assign; Assign; Assign; Assign; Assign].

(** [AllOf = [A, B]], and an [AnyOf] that is present and holds no element:
    two coordinators, and two elements counted. *)
Definition pair_hollow : low.Schema.t :=
  node_with (present [child "A"%string; child "B"%string]) (absent []) (present [])
            (absent []) (absent []) [].

(** Both coordinators of [pair_hollow] signal before the caller leaves the
    loop; the children of [AllOf] report in input order, or in the other. *)
Definition pair_in_order : list Action :=
  [Launch; Recv SlotAllOf 0; Recv SlotAllOf 0; Signal SlotAllOf; Signal SlotAnyOf;
   Assign; Assign; Assign; Assign; Assign].

Definition pair_reversed : list Action :=
  [Launch; Recv SlotAllOf 1; Recv SlotAllOf 0; Signal SlotAllOf; Signal SlotAnyOf;
   Assign; Assign; Assign; Assign; Assign].

(** The coordinator of a slot of [crowded] receives from its five children
    and signals. *)
Definition collect (sl : Slot) : list Action :=
  [Recv sl 0; Recv sl 0; Recv sl 0; Recv sl 0; Recv sl 0; Signal sl].

Definition crowded_sched : list Action :=
  Launch :: collect SlotAllOf ++ collect SlotOneOf ++ collect SlotAnyOf
         ++ collect SlotNot ++ collect SlotItems.

End Scenarios.

(** * Specification predicates and invariants

    Everything below is stated for a node [schema] and the states reached
    from [init schema]. *)

(** Case analysis on a successful step. *)
Ltac step_cases Hstep :=
  unfold step, afterReceive in Hstep; repeat case_match; simplify_eq/=.

Section Invariants.
Context `{Collaborators}.

Notation "'ChildRef'" := (ValueReference.t yamlNode lowSchemaProxy).
Notation "'KeyRef'" := (KeyReference.t yamlNode string).

#[global] Instance Slot_eq_dec : EqDecision Slot.
Proof. solve_decision. Defined.

#[global] Instance PropStatus_eq_dec : EqDecision PropStatus.
Proof. solve_decision. Defined.

#[global] Instance MainPc_eq_dec : EqDecision MainPc.
Proof. solve_decision. Defined.

(** [scalars_of s]: [s] with its composition fields and [Properties] reset
    to nil, that is, what the synchronous part alone decides. *)
Definition scalars_of (v : Schema.t) : Schema.t :=
  Schema.set_AllOf [] (Schema.set_OneOf [] (Schema.set_AnyOf [] (Schema.set_Not []
    (Schema.set_Items [] (Schema.set_Properties ∅ v))))).

Variable schema : low.Schema.t.

(** ** Counting signals *)

(** The entries of the low-level property map. *)
Definition entries : list (KeyRef * ChildRef) :=
  NodeReference.Value (low.Schema.Properties schema).

Definition prop_key (w : PropWorker) : string := KeyReference.Value (prop_k w).

Definition prop_entry (w : PropWorker) : KeyRef * ChildRef := (prop_k w, prop_v w).

(** Signals taken so far on [polyCompletedChan] and on [propsChan]. *)
Definition sig (c : option Coordinator) : nat :=
  match c with
  | Some c => if signalled c then 1 else 0
  | None => 0
  end.

Definition count_signalled (cs : Slots (option Coordinator)) : nat :=
  sig (allOf cs) + sig (oneOf cs) + sig (anyOf cs) + sig (items cs) + sig (not_ cs).

(** A worker whose send on [propsChan] has been taken, whether or not it
    has run its deferred unlock since. *)
Definition sent (w : PropWorker) : nat :=
  match prop_status w with PropSent | PropReturned => 1 | _ => 0 end.

Definition count_sent (ws : list PropWorker) : nat := sum_list_with sent ws.

(** Coordinators that [NewSchema] starts: one per slot that is not empty. *)
Definition started (sl : Slot) : nat :=
  if IsEmpty (slot_ref sl schema) then 0 else 1.

Definition launched_slots : nat :=
  started SlotAllOf + started SlotOneOf + started SlotAnyOf
  + started SlotItems + started SlotNot.

(** ** Invariants *)

(** The synchronous part decided the scalar fields once and for all, and
    the [Properties] field is the shared map. *)
Definition scalars_inv (st : State) : Prop :=
  scalars_of (s st) = NewSchema_sync schema /\ Schema.Properties (s st) = props st.

(** A coordinator exists exactly for a slot that is not empty; it has
    received [j] children, whose proxies are in the slice, and the slice
    together with the children still blocked is the input up to order. *)
Definition coord_inv (sl : Slot) (st : State) : Prop :=
  match slot_get sl (coords st) with
  | None =>
      slot_get sl (locals st) = []
      /\ (pc st <> AtLaunch -> IsEmpty (slot_ref sl schema) = true)
  | Some c =>
      IsEmpty (slot_ref sl schema) = false
      /\ totalSchemas c = length (slot_in sl schema)
      /\ j c = length (slot_get sl (locals st))
      /\ Permutation (slot_get sl (locals st) ++ bChan c)
                     (map buildSchemaChild (slot_in sl schema))
      /\ (signalled c = true -> j c = totalSchemas c)
  end.

(** The caller's counters are the signals taken; past the loop they equal
    the totals the caller computed. *)
Definition barrier_inv (st : State) : Prop :=
  match pc st with
  | AtLaunch =>
      workers st = [] /\ props st = ∅ /\ coords st = mkSlots None None None None None
  | AtBarrier completeChildren completedProps =>
      completeChildren = count_signalled (coords st)
      /\ completedProps = count_sent (workers st)
  | AtAssign _ | AtReturn =>
      count_signalled (coords st) = totalChildren schema
      /\ count_sent (workers st) = totalProps schema
  end.

(** One worker per entry, in the order of [entries]. *)
Definition workers_inv (st : State) : Prop :=
  pc st <> AtLaunch -> map prop_entry (workers st) = entries.

(** Every key of the shared map was written by a worker. *)
Definition props_inv (st : State) : Prop :=
  forall k, is_Some (props st !! k) ->
    exists n w, workers st !! n = Some w /\ prop_status w <> PropStarted /\ prop_key w = k.

Record Inv (st : State) : Prop := mkInv {
  inv_scalars : scalars_inv st;
  inv_coord : forall sl, coord_inv sl st;
  inv_barrier : barrier_inv st;
  inv_workers : workers_inv st;
  inv_props : props_inv st
}.

(** ** What the specification asks for *)

(** The scalar fields, each equal to the [Value] of the
    low-level field of the same name. *)
Definition scalar_fields_copied (v : Schema.t) : Prop :=
  Schema.Title v = NodeReference.Value (low.Schema.Title schema)
  /\ Schema.MultipleOf v = NodeReference.Value (low.Schema.MultipleOf schema)
  /\ Schema.Maximum v = NodeReference.Value (low.Schema.Maximum schema)
  /\ Schema.ExclusiveMaximum v = NodeReference.Value (low.Schema.ExclusiveMaximum schema)
  /\ Schema.Minimum v = NodeReference.Value (low.Schema.Minimum schema)
  /\ Schema.ExclusiveMinimum v = NodeReference.Value (low.Schema.ExclusiveMinimum schema)
  /\ Schema.MaxLength v = NodeReference.Value (low.Schema.MaxLength schema)
  /\ Schema.MinLength v = NodeReference.Value (low.Schema.MinLength schema)
  /\ Schema.Pattern v = NodeReference.Value (low.Schema.Pattern schema)
  /\ Schema.Format v = NodeReference.Value (low.Schema.Format schema)
  /\ Schema.MaxItems v = NodeReference.Value (low.Schema.MaxItems schema)
  /\ Schema.MinItems v = NodeReference.Value (low.Schema.MinItems schema)
  /\ Schema.MaxProperties v = NodeReference.Value (low.Schema.MaxProperties schema)
  /\ Schema.MinProperties v = NodeReference.Value (low.Schema.MinProperties schema)
  /\ Schema.Type_ v = NodeReference.Value (low.Schema.Type_ schema)
  /\ Schema.AdditionalProperties v
     = NodeReference.Value (low.Schema.AdditionalProperties schema)
  /\ Schema.Description v = NodeReference.Value (low.Schema.Description schema)
  /\ Schema.Default v = NodeReference.Value (low.Schema.Default schema)
  /\ Schema.Nullable v = NodeReference.Value (low.Schema.Nullable schema)
  /\ Schema.ReadOnly v = NodeReference.Value (low.Schema.ReadOnly schema)
  /\ Schema.WriteOnly v = NodeReference.Value (low.Schema.WriteOnly schema)
  /\ Schema.Example v = NodeReference.Value (low.Schema.Example schema)
  /\ Schema.Deprecated v = NodeReference.Value (low.Schema.Deprecated schema).

(** Well-formed slots: empty exactly when they hold no element. *)
Definition slots_wf : Prop :=
  forall sl, IsEmpty (slot_ref sl schema) = true <-> slot_in sl schema = [].

(** ** Invariants of well-formed nodes, of distinct keys, of ordered receives *)

(** The composition fields already assigned hold the final slices. *)
Definition assigned_inv (st : State) : Prop :=
  match pc st with
  | AtAssign n =>
      (1 <= n -> slot_out SlotOneOf (s st) = map buildSchemaChild (slot_in SlotOneOf schema))
      /\ (2 <= n -> slot_out SlotAnyOf (s st)
                    = map buildSchemaChild (slot_in SlotAnyOf schema))
      /\ (3 <= n -> slot_out SlotAllOf (s st)
                    = map buildSchemaChild (slot_in SlotAllOf schema))
      /\ (4 <= n -> slot_out SlotItems (s st)
                    = map buildSchemaChild (slot_in SlotItems schema))
  | AtReturn =>
      forall sl, slot_out sl (s st) = map buildSchemaChild (slot_in sl schema)
  | _ => True
  end.

(** The key string of an entry. *)
Definition entry_key (e : KeyRef * ChildRef) : string := KeyReference.Value (fst e).

(** Every worker past its write finds its own entry in the map. *)
Definition props_exact (st : State) : Prop :=
  forall n w, workers st !! n = Some w -> prop_status w <> PropStarted ->
    props st !! prop_key w = Some (buildProps_proxy (prop_k w) (prop_v w)).

(** Children received in the order they were started: the slice and the
    children still blocked, put end to end, are the input in input order. *)
Definition ordered (sl : Slot) (st : State) : Prop :=
  match slot_get sl (coords st) with
  | Some c => slot_get sl (locals st) ++ bChan c = map buildSchemaChild (slot_in sl schema)
  | None => True
  end.

(** A receive of slot [sl] takes the earliest-started child still blocked. *)
Definition receives_first (sl : Slot) (a : Action) : Prop :=
  forall n, a = Recv sl n -> n = 0.

(** The caller is not in the [allDone] loop. *)
Definition not_waiting (st : State) : Prop :=
  forall completeChildren completedProps,
    pc st <> AtBarrier completeChildren completedProps.

(** The schedule of a call that starts nothing it has to wait for. *)
Definition straight : list Action := [Launch; Assign; Assign; Assign; Assign; Assign].

(** ** Progress and termination *)

(** A worker between its [plock.Lock()] and its deferred [plock.Unlock()]:
    blocked on its send, or past it. *)
Definition holds_lock (w : PropWorker) : Prop :=
  prop_status w = PropSending \/ prop_status w = PropSent.

(** [plock] is held only by such a worker. *)
Definition lock_inv (st : State) : Prop :=
  plock st = true ->
  exists n w, workers st !! n = Some w /\ holds_lock w.

(** In the loop, the test has failed for the counters the caller holds. *)
Definition pending_inv (st : State) : Prop :=
  forall completeChildren completedProps,
    pc st = AtBarrier completeChildren completedProps ->
    allDone schema completeChildren completedProps = false.

Record Live (st : State) : Prop := mkLive {
  live_inv : Inv st;
  live_lock : lock_inv st;
  live_pending : pending_inv st
}.

(** Each slot holds at most one element: then the coordinators started are
    as many as the elements the caller counts. *)
Definition at_most_one_each : Prop := forall sl, length (slot_in sl schema) <= 1.

(** What is left to do: receives and the signal of each coordinator, the
    write, the signal and the unlock of each worker, and the caller's own
    steps. *)
Definition work (c : option Coordinator) : nat :=
  match c with
  | Some c => (totalSchemas c - j c) + (if signalled c then 0 else 1)
  | None => 0
  end.

Definition coords_work (cs : Slots (option Coordinator)) : nat :=
  work (allOf cs) + work (oneOf cs) + work (anyOf cs) + work (items cs) + work (not_ cs).

Definition todo (w : PropWorker) : nat :=
  match prop_status w with
  | PropStarted => 3
  | PropSending => 2
  | PropSent => 1
  | PropReturned => 0
  end.

Definition pc_work (p : MainPc) : nat :=
  match p with
  | AtLaunch => 12 + totalChildren schema + 3 * totalProps schema
  | AtBarrier _ _ => 6
  | AtAssign n => 5 - n `min` 4
  | AtReturn => 0
  end.

Definition remaining (st : State) : nat :=
  pc_work (pc st) + coords_work (coords st) + sum_list_with todo (workers st).

(** ** Order within a slot *)

(** Order preservation as the specification words it: once a slot's
    receive loop is over, the slice wraps the input element by element. *)
Definition order_preserved : Prop :=
  forall sched st sl c,
    run schema sched (init schema) = Some st ->
    slot_get sl (coords st) = Some c -> totalSchemas c <= j c ->
    forall i : nat,
      slot_get sl (locals st) !! i = buildSchemaChild <$> (slot_in sl schema !! i).

(** ** Further invariants *)

(** Workers holding [plock]. *)
Definition holding (w : PropWorker) : nat :=
  match prop_status w with PropSending | PropSent => 1 | _ => 0 end.

Definition count_holding (ws : list PropWorker) : nat := sum_list_with holding ws.

(** The lock is held exactly when one worker is between its [Lock] and its
    deferred [Unlock]. *)
Definition mutex_inv (st : State) : Prop :=
  count_holding (workers st) = if plock st then 1 else 0.

(** The caller's read of the slice of [sl] is ordered after every append to
    it: no coordinator runs for the slot, or it has nothing to append, or
    the caller has taken its signal. *)
Definition synchronised (sl : Slot) (st : State) : Prop :=
  unordered (slot_get sl (coords st)) = false.

(** The position of a slot among the trailing assignments, and whether the
    caller at [p] has made the assignment of the slot's field. *)
Definition slot_index (sl : Slot) : nat :=
  match sl with
  | SlotOneOf => 0
  | SlotAnyOf => 1
  | SlotAllOf => 2
  | SlotItems => 3
  | SlotNot => 4
  end.

Definition assigned_at (sl : Slot) (p : MainPc) : bool :=
  match p with
  | AtLaunch | AtBarrier _ _ => false
  | AtAssign n => slot_index sl <? n
  | AtReturn => true
  end.

(** The assignment of the field of a slot, and where the caller is after
    its [n]-th trailing assignment. *)
Definition slot_assign (sl : Slot) (x : list SchemaProxy.t) (v : Schema.t) : Schema.t :=
  match sl with
  | SlotAllOf => Schema.set_AllOf x v
  | SlotOneOf => Schema.set_OneOf x v
  | SlotAnyOf => Schema.set_AnyOf x v
  | SlotNot => Schema.set_Not x v
  | SlotItems => Schema.set_Items x v
  end.

Definition after_assign (n : nat) : MainPc :=
  if n <? 4 then AtAssign (S n) else AtReturn.

(** A composition field is nil until it is assigned; once assigned, the
    field of a synchronised slot is the slot's slice. *)
Definition fields_inv (st : State) : Prop :=
  (forall n, pc st = AtAssign n -> n <= 4)
  /\ forall sl,
       if assigned_at sl (pc st)
       then synchronised sl st -> slot_out sl (s st) = slot_get sl (locals st)
       else slot_out sl (s st) = [].

(** What is stored under a key was built from an entry with that key. *)
Definition props_sound (st : State) : Prop :=
  forall k p, props st !! k = Some p ->
    exists e, e ∈ entries /\ entry_key e = k /\ p = buildProps_proxy (fst e) (snd e).

(** The key of every worker past its write is in the map. *)
Definition props_written (st : State) : Prop :=
  forall n w, workers st !! n = Some w -> prop_status w <> PropStarted ->
    is_Some (props st !! prop_key w).

Record Inv2 (st : State) : Prop := mkInv2 {
  inv2_live : Live st;
  inv2_mutex : mutex_inv st;
  inv2_fields : fields_inv st;
  inv2_sound : props_sound st;
  inv2_written : props_written st
}.

(** The value a call builds when nothing runs concurrently: the scalar
    part, each composition field in input order, one map entry per
    property. *)
Definition materialized : Schema.t :=
  Schema.set_Not (map buildSchemaChild (slot_in SlotNot schema))
    (Schema.set_Items (map buildSchemaChild (slot_in SlotItems schema))
      (Schema.set_AllOf (map buildSchemaChild (slot_in SlotAllOf schema))
        (Schema.set_AnyOf (map buildSchemaChild (slot_in SlotAnyOf schema))
          (Schema.set_OneOf (map buildSchemaChild (slot_in SlotOneOf schema))
            (Schema.set_Properties
               (list_to_map
                  (map (fun e => (entry_key e, buildProps_proxy (fst e) (snd e))) entries))
               (NewSchema_sync schema)))))).

(** An action that is neither of the caller alone nor of the coordinator
    of [sl]: a step of another slot's coordinator or of a property worker. *)
Definition independent (sl : Slot) (a : Action) : Prop :=
  match a with
  | Launch | Assign | RacyAssign _ => False
  | Recv sl' _ | Signal sl' => sl <> sl'
  | Lock _ | PropSignal _ | Unlock _ => True
  end.

(** Determinism as the specification words it: two calls on the same node
    that both return, return equal values. *)
Definition deterministic : Prop :=
  forall sched1 sched2 v1 v2,
    NewSchema schema sched1 = Some v1 -> NewSchema schema sched2 = Some v2 -> v1 = v2.

(** Cardinality as the specification words it: every composition field of
    a returned value has the length of its input. *)
Definition cardinality_kept : Prop :=
  forall sched v sl,
    NewSchema schema sched = Some v -> length (slot_out sl v) = length (slot_in sl schema).

(** * Properties *)

(** ** Cells per slot *)

Lemma slot_get_set_eq {A} sl (x : A) v : slot_get sl (slot_set sl x v) = x.
Proof. by destruct sl. Qed.

Lemma slot_get_set_ne {A} sl sl' (x : A) v :
  sl ≠ sl' -> slot_get sl (slot_set sl' x v) = slot_get sl v.
Proof. by destruct sl, sl'. Qed.

Lemma slot_get_set {A} sl sl' (x : A) v :
  slot_get sl (slot_set sl' x v) = if decide (sl = sl') then x else slot_get sl v.
Proof.
  case_decide as E.
  - subst. apply slot_get_set_eq.
  - by apply slot_get_set_ne.
Qed.

(** ** The fields no goroutine touches *)

Lemma scalars_of_set_AllOf x v : scalars_of (Schema.set_AllOf x v) = scalars_of v.
Proof. by destruct v. Qed.
Lemma scalars_of_set_OneOf x v : scalars_of (Schema.set_OneOf x v) = scalars_of v.
Proof. by destruct v. Qed.
Lemma scalars_of_set_AnyOf x v : scalars_of (Schema.set_AnyOf x v) = scalars_of v.
Proof. by destruct v. Qed.
Lemma scalars_of_set_Not x v : scalars_of (Schema.set_Not x v) = scalars_of v.
Proof. by destruct v. Qed.
Lemma scalars_of_set_Items x v : scalars_of (Schema.set_Items x v) = scalars_of v.
Proof. by destruct v. Qed.
Lemma scalars_of_set_Properties x v : scalars_of (Schema.set_Properties x v) = scalars_of v.
Proof. by destruct v. Qed.

Lemma scalars_of_sync : scalars_of (NewSchema_sync schema) = NewSchema_sync schema.
Proof. reflexivity. Qed.

(** A value is its scalar part, its five composition fields and its
    property map. *)
Lemma Schema_ext (v w : Schema.t) :
  scalars_of v = scalars_of w ->
  (forall sl, slot_out sl v = slot_out sl w) ->
  Schema.Properties v = Schema.Properties w ->
  v = w.
Proof.
  intros Hs Hsl Hp.
  pose proof (Hsl SlotAllOf) as H1. pose proof (Hsl SlotOneOf) as H2.
  pose proof (Hsl SlotAnyOf) as H3. pose proof (Hsl SlotNot) as H4.
  pose proof (Hsl SlotItems) as H5.
  destruct v, w; simpl in *. unfold scalars_of in Hs; simpl in Hs.
  injection Hs as ->; intros; subst. reflexivity.
Qed.

Lemma slot_out_set_Properties sl x v :
  slot_out sl (Schema.set_Properties x v) = slot_out sl v.
Proof. by destruct v, sl. Qed.

Lemma Properties_set_Properties x v :
  Schema.Properties (Schema.set_Properties x v) = x.
Proof. by destruct v. Qed.

(** ** The flattening loop *)

Lemma flatten_from (l : list (ValueReference.t yamlNode string)) (acc : list string) :
  fold_left (fun req r => req ++ [ValueReference.Value r]) l acc
  = acc ++ map (@ValueReference.Value _ _) l.
Proof.
  revert acc. induction l as [|r l IH]; intros acc; simpl.
  - by rewrite app_nil_r.
  - rewrite IH. by rewrite <- app_assoc.
Qed.

Lemma flatten_map l : flatten l = map (@ValueReference.Value _ _) l.
Proof. unfold flatten. by rewrite flatten_from. Qed.

(** ** Invariants of the transition system *)

Lemma count_signalled_set sl x cs :
  count_signalled (slot_set sl x cs) + sig (slot_get sl cs) = count_signalled cs + sig x.
Proof. destruct sl; unfold count_signalled; simpl; lia. Qed.

Lemma count_sent_insert ws n w w' :
  ws !! n = Some w ->
  count_sent (<[n := w']> ws) + sent w = count_sent ws + sent w'.
Proof.
  unfold count_sent. revert n.
  induction ws as [|a ws IH]; intros [|n] Hn; simplify_eq/=.
  - lia.
  - specialize (IH _ Hn). lia.
Qed.

Lemma count_sent_le ws : count_sent ws <= length ws.
Proof.
  unfold count_sent. induction ws as [|a ws IH]; simpl; [lia|].
  unfold sent at 1. destruct (prop_status a); lia.
Qed.

Lemma count_sent_all ws n w :
  count_sent ws = length ws -> ws !! n = Some w -> sent w = 1.
Proof.
  unfold count_sent. revert n.
  induction ws as [|a ws IH]; intros n Hc Hn; [done|].
  simpl in Hc. pose proof (count_sent_le ws) as Hle. unfold count_sent in Hle.
  assert (sent a <= 1) as Ha by (unfold sent; destruct (prop_status a); lia).
  destruct n as [|n]; simplify_eq/=.
  - lia.
  - apply (IH n); [lia|done].
Qed.

Lemma sent_written w : sent w = 1 -> prop_status w <> PropStarted.
Proof. unfold sent. by destruct (prop_status w). Qed.

Lemma sent_status w :
  sent w = 1 -> prop_status w = PropSent \/ prop_status w = PropReturned.
Proof. unfold sent. destruct (prop_status w); auto; lia. Qed.

Lemma Inv_init : Inv (init schema).
Proof.
  split.
  - split; reflexivity.
  - intros sl. unfold coord_inv. destruct sl; simpl; split; try done.
  - simpl. done.
  - intros Hpc. by simpl in Hpc.
  - intros k [x Hx]. simpl in Hx. by rewrite lookup_empty in Hx.
Qed.

Lemma scalars_inv_step a st st' :
  scalars_inv st -> step schema a st = Some st' -> scalars_inv st'.
Proof.
  intros [Hs Hp] Hstep. unfold scalars_inv.
  step_cases Hstep;
    rewrite ?scalars_of_set_Properties, ?scalars_of_set_OneOf, ?scalars_of_set_AnyOf,
      ?scalars_of_set_AllOf, ?scalars_of_set_Items, ?scalars_of_set_Not,
      ?Properties_set_Properties;
    try (split; [assumption | by destruct (s st)]); by split.
Qed.

(** *** What each successful step did *)

Lemma step_Launch st st' :
  step schema Launch st = Some st' ->
  pc st = AtLaunch
  /\ st' = {| pc := if 0 <? totalProps schema + totalChildren schema
                    then AtBarrier 0 0 else AtAssign 0;
              s := s st;
              locals := locals st;
              coords := mkSlots (startCoordinator (low.Schema.AllOf schema))
                                (startCoordinator (low.Schema.OneOf schema))
                                (startCoordinator (low.Schema.AnyOf schema))
                                (startCoordinator (low.Schema.Not schema))
                                (startCoordinator (low.Schema.Items schema));
              props := props st;
              plock := plock st;
              workers := map startWorker entries |}.
Proof. intros Hstep. by step_cases Hstep. Qed.

Lemma step_Recv sl n st st' :
  step schema (Recv sl n) st = Some st' ->
  exists c t,
    slot_get sl (coords st) = Some c /\ j c < totalSchemas c /\ bChan c !! n = Some t
    /\ st' = {| pc := pc st;
                s := s st;
                locals := slot_set sl (slot_get sl (locals st) ++ [t]) (locals st);
                coords := slot_set sl
                            (Some {| totalSchemas := totalSchemas c; j := S (j c);
                                     bChan := delete n (bChan c);
                                     signalled := signalled c |})
                            (coords st);
                props := props st;
                plock := plock st;
                workers := workers st |}.
Proof.
  intros Hstep. unfold step in Hstep.
  destruct (slot_get sl (coords st)) as [c|]; [|done].
  destruct (j c <? totalSchemas c) eqn:Hlt; [|done].
  destruct (bChan c !! n) as [t|] eqn:Ht; [|done].
  apply Nat.ltb_lt in Hlt. exists c, t. by simplify_eq.
Qed.

Lemma step_Signal sl st st' :
  step schema (Signal sl) st = Some st' ->
  exists c completeChildren completedProps,
    slot_get sl (coords st) = Some c
    /\ pc st = AtBarrier completeChildren completedProps
    /\ totalSchemas c <= j c /\ signalled c = false
    /\ st' = {| pc := afterReceive schema (S completeChildren) completedProps;
                s := s st;
                locals := locals st;
                coords := slot_set sl
                            (Some {| totalSchemas := totalSchemas c; j := j c;
                                     bChan := bChan c; signalled := true |})
                            (coords st);
                props := props st;
                plock := plock st;
                workers := workers st |}.
Proof.
  intros Hstep. unfold step in Hstep.
  destruct (slot_get sl (coords st)) as [c|]; [|done].
  destruct (pc st) as [|cc cp| |]; try done.
  destruct (j c <? totalSchemas c) eqn:Hlt; [done|].
  destruct (signalled c) eqn:Hsg; [done|]. simpl in Hstep.
  apply Nat.ltb_ge in Hlt. exists c, cc, cp. by simplify_eq.
Qed.

Lemma step_Lock n st st' :
  step schema (Lock n) st = Some st' ->
  exists w,
    plock st = false /\ workers st !! n = Some w /\ prop_status w = PropStarted
    /\ st' = {| pc := pc st;
                s := Schema.set_Properties
                       (<[prop_key w := buildProps_proxy (prop_k w) (prop_v w)]> (props st))
                       (s st);
                locals := locals st;
                coords := coords st;
                props := <[prop_key w := buildProps_proxy (prop_k w) (prop_v w)]> (props st);
                plock := true;
                workers := <[n := {| prop_k := prop_k w; prop_v := prop_v w;
                                     prop_status := PropSending |}]> (workers st) |}.
Proof.
  intros Hstep. unfold step in Hstep.
  destruct (plock st); [done|].
  destruct (workers st !! n) as [w|]; [|done].
  destruct (prop_status w) eqn:Hw; try done.
  exists w. by simplify_eq.
Qed.

Lemma step_PropSignal n st st' :
  step schema (PropSignal n) st = Some st' ->
  exists w completeChildren completedProps,
    workers st !! n = Some w
    /\ pc st = AtBarrier completeChildren completedProps
    /\ prop_status w = PropSending
    /\ st' = {| pc := afterReceive schema completeChildren (S completedProps);
                s := s st;
                locals := locals st;
                coords := coords st;
                props := props st;
                plock := plock st;
                workers := <[n := {| prop_k := prop_k w; prop_v := prop_v w;
                                     prop_status := PropSent |}]> (workers st) |}.
Proof.
  intros Hstep. unfold step in Hstep.
  destruct (workers st !! n) as [w|]; [|done].
  destruct (pc st) as [|cc cp| |]; try done.
  destruct (prop_status w) eqn:Hw; try done.
  exists w, cc, cp. by simplify_eq.
Qed.

Lemma step_Unlock n st st' :
  step schema (Unlock n) st = Some st' ->
  exists w,
    workers st !! n = Some w /\ prop_status w = PropSent
    /\ st' = {| pc := pc st;
                s := s st;
                locals := locals st;
                coords := coords st;
                props := props st;
                plock := false;
                workers := <[n := {| prop_k := prop_k w; prop_v := prop_v w;
                                     prop_status := PropReturned |}]> (workers st) |}.
Proof.
  intros Hstep. unfold step in Hstep.
  destruct (workers st !! n) as [w|]; [|done].
  destruct (prop_status w) eqn:Hw; try done.
  exists w. by simplify_eq.
Qed.

Lemma step_Assign st st' :
  step schema Assign st = Some st' ->
  exists n,
    pc st = AtAssign n
    /\ locals st' = locals st /\ coords st' = coords st /\ props st' = props st
    /\ plock st' = plock st /\ workers st' = workers st
    /\ (n = 0 /\ s st' = Schema.set_OneOf (oneOf (locals st)) (s st) /\ pc st' = AtAssign 1
        \/ n = 1 /\ s st' = Schema.set_AnyOf (anyOf (locals st)) (s st) /\ pc st' = AtAssign 2
        \/ n = 2 /\ s st' = Schema.set_AllOf (allOf (locals st)) (s st) /\ pc st' = AtAssign 3
        \/ n = 3 /\ s st' = Schema.set_Items (items (locals st)) (s st) /\ pc st' = AtAssign 4
        \/ 4 <= n /\ s st' = Schema.set_Not (not_ (locals st)) (s st) /\ pc st' = AtReturn).
Proof.
  intros Hstep. unfold step in Hstep.
  destruct (pc st) as [| | n|]; try done. exists n.
  destruct n as [|[|[|[|n]]]]; simplify_eq/=; repeat split; auto 10 with lia.
Qed.

(** The racy assignment writes what the read yields, for a slot whose
    coordinator the caller is not synchronised with. *)
Lemma step_RacyAssign v st st' :
  step schema (RacyAssign v) st = Some st' ->
  exists n,
    pc st = AtAssign n
    /\ locals st' = locals st /\ coords st' = coords st /\ props st' = props st
    /\ plock st' = plock st /\ workers st' = workers st
    /\ (n = 0 /\ s st' = Schema.set_OneOf v (s st) /\ pc st' = AtAssign 1
        \/ n = 1 /\ s st' = Schema.set_AnyOf v (s st) /\ pc st' = AtAssign 2
        \/ n = 2 /\ s st' = Schema.set_AllOf v (s st) /\ pc st' = AtAssign 3
        \/ n = 3 /\ s st' = Schema.set_Items v (s st) /\ pc st' = AtAssign 4
        \/ 4 <= n /\ s st' = Schema.set_Not v (s st) /\ pc st' = AtReturn).
Proof.
  intros Hstep. unfold step in Hstep.
  destruct (pc st) as [| | n|]; try done. exists n.
  destruct (unordered (slot_get (assigned n) (coords st))); [|done].
  destruct n as [|[|[|[|n]]]]; simplify_eq/=; repeat split; auto 10 with lia.
Qed.

Lemma step_RacyAssign_unordered v st st' :
  step schema (RacyAssign v) st = Some st' ->
  exists n, pc st = AtAssign n /\ unordered (slot_get (assigned n) (coords st)) = true.
Proof.
  intros Hstep. unfold step in Hstep.
  destruct (pc st) as [| | n|]; try done. exists n.
  by destruct (unordered (slot_get (assigned n) (coords st))).
Qed.

Lemma afterReceive_cases completeChildren completedProps :
  afterReceive schema completeChildren completedProps = AtAssign 0
  /\ totalProps schema = completedProps /\ totalChildren schema = completeChildren
  \/ afterReceive schema completeChildren completedProps
     = AtBarrier completeChildren completedProps.
Proof.
  unfold afterReceive, allDone.
  destruct (totalProps schema =? completedProps) eqn:E1;
    destruct (totalChildren schema =? completeChildren) eqn:E2; simpl; auto.
  apply Nat.eqb_eq in E1, E2. auto.
Qed.

Lemma afterReceive_launched cc cp : afterReceive schema cc cp <> AtLaunch.
Proof. unfold afterReceive. by destruct (allDone schema cc cp). Qed.

Lemma coord_inv_step a st st' :
  Inv st -> step schema a st = Some st' -> forall sl, coord_inv sl st'.
Proof.
  intros HI Hstep sl. pose proof (inv_coord HI sl) as Hc.
  pose proof (inv_barrier HI) as Hb. unfold barrier_inv in Hb.
  unfold coord_inv in *.
  destruct a.
  - (* Launch *)
    apply step_Launch in Hstep as [Hpc ->]. rewrite Hpc in Hb.
    destruct Hb as (_ & _ & Hcs). simpl. rewrite Hcs in Hc.
    assert (slot_get sl (locals st) = []) as Hl by (destruct sl; simpl in Hc; tauto).
    rewrite Hl.
    replace (slot_get sl _) with (startCoordinator (slot_ref sl schema)) by (by destruct sl).
    unfold startCoordinator. destruct (IsEmpty (slot_ref sl schema)); simpl.
    + done.
    + repeat split; done.
  - (* Recv *)
    apply step_Recv in Hstep as (c & t & Hsl & Hlt & Ht & ->). simpl.
    rewrite !slot_get_set. case_decide as E; [subst sl0|done].
    rewrite Hsl in Hc. destruct Hc as (He & Htot & Hj & Hp & Hs). simpl.
    repeat split; try done.
    + rewrite length_app; simpl; lia.
    + rewrite <- Hp. rewrite <- app_assoc. apply Permutation_app_head.
      simpl. symmetry. by apply delete_Permutation.
    + intros Hsg. specialize (Hs Hsg). lia.
  - (* Signal *)
    apply step_Signal in Hstep as (c & cc & cp & Hsl & Hpc & Hge & Hsg & ->). simpl.
    rewrite !slot_get_set. case_decide as E; [subst sl0|].
    + rewrite Hsl in Hc. destruct Hc as (He & Htot & Hj & Hp & Hs). simpl.
      apply Permutation_length in Hp as Hlen. rewrite length_app, length_map in Hlen.
      repeat split; try done. intros _. lia.
    + destruct (slot_get sl (coords st)); [done|].
      destruct Hc as [Hc1 Hc2]; split; [done|]. intros _. apply Hc2. by rewrite Hpc.
  - (* Lock *)
    apply step_Lock in Hstep as (w & Hl & Hw & Hst & ->). simpl. done.
  - (* PropSignal *)
    apply step_PropSignal in Hstep as (w & cc & cp & Hw & Hpc & Hst & ->). simpl.
    destruct (slot_get sl (coords st)); [done|].
    destruct Hc as [Hc1 Hc2]; split; [done|]. intros _. apply Hc2. by rewrite Hpc.
  - (* Assign *)
    apply step_Assign in Hstep as (n & Hpc & Hl & Hcs & _). rewrite Hl, Hcs.
    destruct (slot_get sl (coords st)); [done|].
    destruct Hc as [Hc1 Hc2]; split; [done|]. intros _. apply Hc2. by rewrite Hpc.
  - (* Unlock *)
    apply step_Unlock in Hstep as (w & Hw & Hst & ->). simpl. done.
  - (* RacyAssign *)
    apply step_RacyAssign in Hstep as (n & Hpc & Hl & Hcs & _). rewrite Hl, Hcs.
    destruct (slot_get sl (coords st)); [done|].
    destruct Hc as [Hc1 Hc2]; split; [done|]. intros _. apply Hc2. by rewrite Hpc.
Qed.

Lemma count_sent_started (l : list (KeyRef * ChildRef)) :
  count_sent (map startWorker l) = 0.
Proof. unfold count_sent. induction l as [|e l IH]; simpl; [done|]. by rewrite IH. Qed.

Lemma sig_startCoordinator r : sig (startCoordinator r) = 0.
Proof. unfold startCoordinator. by destruct (IsEmpty r). Qed.

Lemma barrier_inv_step a st st' :
  Inv st -> step schema a st = Some st' -> barrier_inv st'.
Proof.
  intros HI Hstep. pose proof (inv_barrier HI) as Hb. unfold barrier_inv in *.
  destruct a.
  - (* Launch *)
    apply step_Launch in Hstep as [Hpc ->]. simpl.
    assert (count_signalled
              (mkSlots (startCoordinator (low.Schema.AllOf schema))
                       (startCoordinator (low.Schema.OneOf schema))
                       (startCoordinator (low.Schema.AnyOf schema))
                       (startCoordinator (low.Schema.Not schema))
                       (startCoordinator (low.Schema.Items schema))) = 0) as Hz.
    { unfold count_signalled; simpl. by rewrite !sig_startCoordinator. }
    rewrite Hz, count_sent_started.
    destruct (0 <? totalProps schema + totalChildren schema) eqn:E; [done|].
    apply Nat.ltb_ge in E. lia.
  - (* Recv *)
    apply step_Recv in Hstep as (c & t & Hsl & Hlt & Ht & ->). simpl.
    pose proof (count_signalled_set sl
      (Some {| totalSchemas := totalSchemas c; j := S (j c);
               bChan := delete n (bChan c); signalled := signalled c |}) (coords st)) as Hcnt.
    rewrite Hsl in Hcnt. simpl in Hcnt.
    destruct (pc st).
    + destruct Hb as (_ & _ & Hcs). rewrite Hcs in Hsl. by destruct sl.
    + split; [lia|tauto].
    + split; [lia|tauto].
    + split; [lia|tauto].
  - (* Signal *)
    apply step_Signal in Hstep as (c & cc & cp & Hsl & Hpc & Hge & Hsg & ->). simpl.
    pose proof (count_signalled_set sl
      (Some {| totalSchemas := totalSchemas c; j := j c;
               bChan := bChan c; signalled := true |}) (coords st)) as Hcnt.
    rewrite Hsl in Hcnt. simpl in Hcnt. rewrite Hsg in Hcnt.
    rewrite Hpc in Hb. destruct Hb as [-> ->].
    destruct (afterReceive_cases (S (count_signalled (coords st)))
                (count_sent (workers st))) as [(-> & HK & HT) | ->]; split; lia.
  - (* Lock *)
    apply step_Lock in Hstep as (w & Hl & Hw & Hst & ->). simpl.
    pose proof (@count_sent_insert _ _ _
      {| prop_k := prop_k w; prop_v := prop_v w; prop_status := PropSending |} Hw) as Hcnt.
    unfold sent in Hcnt. rewrite Hst in Hcnt. simpl in Hcnt.
    destruct (pc st).
    + destruct Hb as (Hws & _). by rewrite Hws in Hw.
    + split; [tauto|lia].
    + split; [tauto|lia].
    + split; [tauto|lia].
  - (* PropSignal *)
    apply step_PropSignal in Hstep as (w & cc & cp & Hw & Hpc & Hst & ->). simpl.
    pose proof (@count_sent_insert _ _ _
      {| prop_k := prop_k w; prop_v := prop_v w; prop_status := PropSent |} Hw) as Hcnt.
    unfold sent in Hcnt. rewrite Hst in Hcnt. simpl in Hcnt.
    rewrite Hpc in Hb. destruct Hb as [-> ->].
    destruct (afterReceive_cases (count_signalled (coords st))
                (S (count_sent (workers st)))) as [(-> & HK & HT) | ->]; split; lia.
  - (* Assign *)
    apply step_Assign in Hstep as (n & Hpc & Hl & Hcs & Hp & Hk & Hw & Hcase).
    rewrite Hpc in Hb. rewrite Hcs, Hw.
    destruct Hcase as [(_ & _ & ->)|[(_ & _ & ->)|[(_ & _ & ->)|[(_ & _ & ->)|(_ & _ & ->)]]]];
      done.
  - (* Unlock *)
    apply step_Unlock in Hstep as (w & Hw & Hst & ->). simpl.
    pose proof (@count_sent_insert _ _ _
      {| prop_k := prop_k w; prop_v := prop_v w; prop_status := PropReturned |} Hw) as Hcnt.
    unfold sent in Hcnt. rewrite Hst in Hcnt. simpl in Hcnt.
    destruct (pc st).
    + destruct Hb as (Hws & _). by rewrite Hws in Hw.
    + split; [tauto|lia].
    + split; [tauto|lia].
    + split; [tauto|lia].
  - (* RacyAssign *)
    apply step_RacyAssign in Hstep as (n & Hpc & Hl & Hcs & Hp & Hk & Hw & Hcase).
    rewrite Hpc in Hb. rewrite Hcs, Hw.
    destruct Hcase as [(_ & _ & ->)|[(_ & _ & ->)|[(_ & _ & ->)|[(_ & _ & ->)|(_ & _ & ->)]]]];
      done.
Qed.

Lemma workers_inv_step a st st' :
  Inv st -> step schema a st = Some st' -> workers_inv st'.
Proof.
  intros HI Hstep. pose proof (inv_workers HI) as Hw.
  pose proof (inv_barrier HI) as Hb. unfold barrier_inv in Hb.
  unfold workers_inv in *. intros _.
  destruct a.
  - apply step_Launch in Hstep as [Hpc ->]. simpl.
    rewrite map_map. unfold prop_entry, startWorker; simpl.
    rewrite <- (map_id entries) at 2. apply map_ext. by intros [k v].
  - apply step_Recv in Hstep as (c & t & Hsl & Hlt & Ht & ->). simpl.
    apply Hw. intros Hpc. rewrite Hpc in Hb. destruct Hb as (_ & _ & Hcs).
    rewrite Hcs in Hsl. by destruct sl.
  - apply step_Signal in Hstep as (c & cc & cp & Hsl & Hpc & Hge & Hsg & ->). simpl.
    apply Hw. by rewrite Hpc.
  - apply step_Lock in Hstep as (w & Hl & Hwn & Hst & ->). simpl.
    assert (pc st <> AtLaunch) as Hpc.
    { intros Hpc. rewrite Hpc in Hb. destruct Hb as (Hws & _). by rewrite Hws in Hwn. }
    rewrite <- (Hw Hpc). rewrite list_fmap_insert. apply list_insert_id.
    by rewrite list_lookup_fmap, Hwn.
  - apply step_PropSignal in Hstep as (w & cc & cp & Hwn & Hpc & Hst & ->). simpl.
    rewrite <- Hw by (by rewrite Hpc). rewrite list_fmap_insert. apply list_insert_id.
    by rewrite list_lookup_fmap, Hwn.
  - apply step_Assign in Hstep as (n & Hpc & Hl & Hcs & Hp & Hk & Hws & Hcase).
    rewrite Hws. apply Hw. by rewrite Hpc.
  - apply step_Unlock in Hstep as (w & Hwn & Hst & ->). simpl.
    assert (pc st <> AtLaunch) as Hpc.
    { intros Hpc. rewrite Hpc in Hb. destruct Hb as (Hws & _). by rewrite Hws in Hwn. }
    rewrite <- (Hw Hpc). rewrite list_fmap_insert. apply list_insert_id.
    by rewrite list_lookup_fmap, Hwn.
  - apply step_RacyAssign in Hstep as (n & Hpc & Hl & Hcs & Hp & Hk & Hws & Hcase).
    rewrite Hws. apply Hw. by rewrite Hpc.
Qed.

Lemma props_inv_step a st st' :
  Inv st -> step schema a st = Some st' -> props_inv st'.
Proof.
  intros HI Hstep. pose proof (inv_props HI) as Hp. unfold props_inv in *.
  destruct a.
  - apply step_Launch in Hstep as [Hpc ->]. simpl.
    pose proof (inv_barrier HI) as Hb. unfold barrier_inv in Hb. rewrite Hpc in Hb.
    destruct Hb as (_ & Hpe & _). intros k [x Hx]. rewrite Hpe in Hx.
    by rewrite lookup_empty in Hx.
  - apply step_Recv in Hstep as (c & t & Hsl & Hlt & Ht & ->). simpl. done.
  - apply step_Signal in Hstep as (c & cc & cp & Hsl & Hpc & Hge & Hsg & ->). simpl. done.
  - apply step_Lock in Hstep as (w & Hl & Hwn & Hst & ->). simpl.
    intros k Hk. destruct (decide (prop_key w = k)) as [<-|Hne].
    + exists n, {| prop_k := prop_k w; prop_v := prop_v w; prop_status := PropSending |}.
      split; [|done]. apply list_lookup_insert_eq. by eapply lookup_lt_Some.
    + rewrite lookup_insert_ne in Hk by done.
      destruct (Hp k Hk) as (n' & w' & Hw' & Hst' & Hk').
      exists n', w'. split; [|done].
      rewrite list_lookup_insert_ne; [done|]. intros ->. congruence.
  - apply step_PropSignal in Hstep as (w & cc & cp & Hwn & Hpc & Hst & ->). simpl.
    intros k Hk. destruct (Hp k Hk) as (n' & w' & Hw' & Hst' & Hk').
    destruct (decide (n = n')) as [->|Hne].
    + exists n', {| prop_k := prop_k w; prop_v := prop_v w; prop_status := PropSent |}.
      split; [apply list_lookup_insert_eq; by eapply lookup_lt_Some|].
      split; [done|]. unfold prop_key in *; simpl. congruence.
    + exists n', w'. by rewrite list_lookup_insert_ne.
  - apply step_Assign in Hstep as (n & Hpc & Hl & Hcs & Hpr & Hk & Hws & Hcase).
    by rewrite Hpr, Hws.
  - apply step_Unlock in Hstep as (w & Hwn & Hst & ->). simpl.
    intros k Hk. destruct (Hp k Hk) as (n' & w' & Hw' & Hst' & Hk').
    destruct (decide (n = n')) as [->|Hne].
    + exists n', {| prop_k := prop_k w; prop_v := prop_v w; prop_status := PropReturned |}.
      split; [apply list_lookup_insert_eq; by eapply lookup_lt_Some|].
      split; [done|]. unfold prop_key in *; simpl. congruence.
    + exists n', w'. by rewrite list_lookup_insert_ne.
  - apply step_RacyAssign in Hstep as (n & Hpc & Hl & Hcs & Hpr & Hk & Hws & Hcase).
    by rewrite Hpr, Hws.
Qed.

Lemma Inv_step a st st' : Inv st -> step schema a st = Some st' -> Inv st'.
Proof.
  intros HI Hstep. split.
  - eapply scalars_inv_step; [apply HI|done].
  - by eapply coord_inv_step.
  - by eapply barrier_inv_step.
  - by eapply workers_inv_step.
  - by eapply props_inv_step.
Qed.

Lemma Inv_run sched st st' : Inv st -> run schema sched st = Some st' -> Inv st'.
Proof.
  revert st. induction sched as [|a sched IH]; intros st HI Hrun; simpl in Hrun.
  - by simplify_eq.
  - destruct (step schema a st) as [st1|] eqn:Hstep; [|done].
    eapply IH; [|done]. by eapply Inv_step.
Qed.

Lemma Inv_reachable sched st : run schema sched (init schema) = Some st -> Inv st.
Proof. apply Inv_run, Inv_init. Qed.

(** ** The value returned *)

Lemma NewSchema_Some sched v :
  NewSchema schema sched = Some v ->
  exists st, run schema sched (init schema) = Some st /\ pc st = AtReturn /\ s st = v.
Proof.
  unfold NewSchema. intros Hv.
  destruct (run schema sched (init schema)) as [st|]; [|done].
  destruct (pc st) eqn:Hpc; try done. exists st. by simplify_eq.
Qed.

Lemma scalar_fields_of_sync v :
  scalars_of v = NewSchema_sync schema ->
  scalar_fields_copied v
  /\ Schema.UniqueItems v = 0%Z
  /\ Schema.Required v = flatten (NodeReference.Value (low.Schema.Required schema))
  /\ Schema.Enum v = flatten (NodeReference.Value (low.Schema.Enum schema))
  /\ Schema.low v = schema.
Proof.
  intros Hv. destruct v. unfold scalars_of, NewSchema_sync in Hv. simpl in Hv.
  injection Hv as ->; intros; subst. unfold scalar_fields_copied; simpl.
  repeat split; reflexivity.
Qed.

(** ** Signals available to the barrier *)

Lemma sig_le_started st sl : Inv st -> sig (slot_get sl (coords st)) <= started sl.
Proof.
  intros HI. pose proof (inv_coord HI sl) as Hc. unfold coord_inv in Hc.
  unfold started. destruct (slot_get sl (coords st)) as [c|]; simpl; [|lia].
  destruct Hc as (-> & _). destruct (signalled c); lia.
Qed.

Lemma count_signalled_le_launched st :
  Inv st -> count_signalled (coords st) <= launched_slots.
Proof.
  intros HI.
  pose proof (sig_le_started SlotAllOf HI). pose proof (sig_le_started SlotOneOf HI).
  pose proof (sig_le_started SlotAnyOf HI). pose proof (sig_le_started SlotItems HI).
  pose proof (sig_le_started SlotNot HI).
  unfold count_signalled, launched_slots. simpl in *. lia.
Qed.

(** The caller leaves the barrier only with [totalChildren] signals taken
    from coordinators, and each coordinator gives one. *)
Lemma past_barrier_total st :
  Inv st -> (pc st = AtReturn \/ exists n, pc st = AtAssign n) ->
  count_signalled (coords st) = totalChildren schema
  /\ count_sent (workers st) = totalProps schema.
Proof.
  intros HI Hpc. pose proof (inv_barrier HI) as Hb. unfold barrier_inv in Hb.
  destruct Hpc as [Hpc|[n Hpc]]; by rewrite Hpc in Hb.
Qed.

Lemma never_past_barrier sched st :
  launched_slots < totalChildren schema ->
  run schema sched (init schema) = Some st ->
  pc st = AtLaunch \/ exists completeChildren completedProps,
    pc st = AtBarrier completeChildren completedProps /\ completeChildren < totalChildren schema.
Proof.
  intros Hlt Hrun. pose proof (Inv_reachable _ Hrun) as HI.
  pose proof (count_signalled_le_launched HI) as Hle.
  pose proof (inv_barrier HI) as Hb. unfold barrier_inv in Hb.
  destruct (pc st) as [|cc cp|n|] eqn:Hpc.
  - by left.
  - right. exists cc, cp. split; [done|]. destruct Hb as [-> _]. lia.
  - destruct Hb as [Hb _]. lia.
  - destruct Hb as [Hb _]. lia.
Qed.

(** ** Well-formed slots: empty exactly when they hold no element *)

Lemma totalChildren_slots :
  totalChildren schema
  = length (slot_in SlotAllOf schema) + length (slot_in SlotOneOf schema)
    + length (slot_in SlotAnyOf schema) + length (slot_in SlotItems schema)
    + length (slot_in SlotNot schema).
Proof. reflexivity. Qed.

Lemma sig_le_length st sl :
  slots_wf -> Inv st -> sig (slot_get sl (coords st)) <= length (slot_in sl schema).
Proof.
  intros Hwf HI. pose proof (inv_coord HI sl) as Hc. unfold coord_inv in Hc.
  destruct (slot_get sl (coords st)) as [c|]; simpl; [|lia].
  destruct Hc as (He & _).
  destruct (slot_in sl schema) eqn:Hin.
  - apply Hwf in Hin. congruence.
  - destruct (signalled c); simpl; lia.
Qed.

Lemma sig_eq_length st sl :
  slots_wf -> Inv st -> (pc st = AtReturn \/ exists n, pc st = AtAssign n) ->
  sig (slot_get sl (coords st)) = length (slot_in sl schema).
Proof.
  intros Hwf HI Hpc. destruct (past_barrier_total HI Hpc) as [Hcnt _].
  rewrite totalChildren_slots in Hcnt.
  pose proof (sig_le_length SlotAllOf Hwf HI). pose proof (sig_le_length SlotOneOf Hwf HI).
  pose proof (sig_le_length SlotAnyOf Hwf HI). pose proof (sig_le_length SlotItems Hwf HI).
  pose proof (sig_le_length SlotNot Hwf HI).
  unfold count_signalled in Hcnt. simpl in *. destruct sl; simpl; lia.
Qed.

(** Past the barrier every local slice holds its final value, the proxies of
    the input in input order. *)
Lemma locals_final st sl :
  slots_wf -> Inv st -> (pc st = AtReturn \/ exists n, pc st = AtAssign n) ->
  slot_get sl (locals st) = map buildSchemaChild (slot_in sl schema).
Proof.
  intros Hwf HI Hpc. pose proof (sig_eq_length sl Hwf HI Hpc) as Hsig.
  pose proof (inv_coord HI sl) as Hc. unfold coord_inv in Hc.
  destruct (slot_get sl (coords st)) as [c|]; simpl in Hsig.
  - destruct Hc as (He & Htot & Hj & Hp & Hs).
    destruct (signalled c); [|].
    + specialize (Hs eq_refl).
      apply Permutation_length in Hp as Hlen. rewrite length_app, length_map in Hlen.
      assert (bChan c = []) as Hb by (apply length_zero_iff_nil; lia).
      rewrite Hb, app_nil_r in Hp.
      destruct (slot_in sl schema) as [|x [|y l]]; simpl in *; try lia.
      by apply Permutation_singleton_r in Hp.
    + destruct (slot_in sl schema); [|done]. simpl in *.
      apply Permutation_nil_r in Hp.
      by apply app_eq_nil in Hp as [-> _].
  - destruct Hc as [-> Hc]. symmetry in Hsig. apply length_zero_iff_nil in Hsig.
    by rewrite Hsig.
Qed.

(** With well-formed slots the caller leaves the loop only when it has taken
    the signal of every coordinator: no slice is read in a race. *)
Lemma wf_synchronised st sl :
  slots_wf -> Inv st -> (pc st = AtReturn \/ exists n, pc st = AtAssign n) ->
  unordered (slot_get sl (coords st)) = false.
Proof.
  intros Hwf HI Hpc. pose proof (sig_eq_length sl Hwf HI Hpc) as Hsig.
  pose proof (inv_coord HI sl) as Hc. unfold coord_inv in Hc.
  destruct (slot_get sl (coords st)) as [c|]; simpl in *; [|done].
  destruct Hc as (_ & Htot & _). destruct (signalled c); simpl; [done|].
  apply Nat.ltb_ge. lia.
Qed.

Lemma assigned_inv_step a st st' :
  slots_wf -> Inv st -> assigned_inv st -> step schema a st = Some st' -> assigned_inv st'.
Proof.
  intros Hwf HI Ha Hstep. unfold assigned_inv in *.
  destruct a.
  - apply step_Launch in Hstep as [Hpc ->]. simpl.
    destruct (0 <? _); [done|]. repeat split; intros; lia.
  - apply step_Recv in Hstep as (c & t & Hsl & Hlt & Ht & ->). simpl. done.
  - apply step_Signal in Hstep as (c & cc & cp & Hsl & Hpc & Hge & Hsg & ->). simpl.
    destruct (afterReceive_cases (S cc) cp) as [(-> & _) | ->]; [|done].
    repeat split; intros; lia.
  - apply step_Lock in Hstep as (w & Hl & Hw & Hst & ->). simpl.
    destruct (pc st); try done.
    + by destruct (s st).
    + intros sl. rewrite <- Ha. by destruct (s st), sl.
  - apply step_PropSignal in Hstep as (w & cc & cp & Hw & Hpc & Hst & ->). simpl.
    destruct (afterReceive_cases cc (S cp)) as [(-> & _) | ->]; [|done].
    repeat split; intros; lia.
  - apply step_Assign in Hstep as (n & Hpc & Hl & Hcs & Hp & Hk & Hw & Hcase).
    rewrite Hpc in Ha. destruct Ha as (H1 & H2 & H3 & H4).
    assert (forall sl, slot_get sl (locals st) = map buildSchemaChild (slot_in sl schema))
      as Hfin by (intros sl; apply locals_final; eauto).
    pose proof (Hfin SlotAllOf) as F1. pose proof (Hfin SlotOneOf) as F2.
    pose proof (Hfin SlotAnyOf) as F3. pose proof (Hfin SlotNot) as F4.
    pose proof (Hfin SlotItems) as F5. simpl in F1, F2, F3, F4, F5.
    destruct Hcase as [(-> & -> & ->)|[(-> & -> & ->)|[(-> & -> & ->)
                      |[(-> & -> & ->)|(Hn & -> & ->)]]]].
    + destruct (s st); simpl in *. repeat split; intros; try lia. done.
    + specialize (H1 ltac:(lia)).
      destruct (s st); simpl in *. repeat split; intros; try lia; done.
    + specialize (H1 ltac:(lia)). specialize (H2 ltac:(lia)).
      destruct (s st); simpl in *. repeat split; intros; try lia; done.
    + specialize (H1 ltac:(lia)). specialize (H2 ltac:(lia)). specialize (H3 ltac:(lia)).
      destruct (s st); simpl in *. repeat split; intros; try lia; done.
    + specialize (H1 ltac:(lia)). specialize (H2 ltac:(lia)). specialize (H3 ltac:(lia)).
      specialize (H4 ltac:(lia)).
      destruct (s st); simpl in *. intros []; simpl; done.
  - apply step_Unlock in Hstep as (w & Hw & Hst & ->). simpl. done.
  - apply step_RacyAssign_unordered in Hstep as (n & Hpc & Hun).
    rewrite wf_synchronised in Hun; [done|done|done|eauto].
Qed.

Lemma assigned_inv_run sched st st' :
  slots_wf -> Inv st -> assigned_inv st -> run schema sched st = Some st' -> assigned_inv st'.
Proof.
  intros Hwf. revert st. induction sched as [|a sched IH]; intros st HI Ha Hrun;
    simpl in Hrun.
  - by simplify_eq.
  - destruct (step schema a st) as [st1|] eqn:Hstep; [|done].
    eapply IH; [| |done].
    + by eapply Inv_step.
    + by eapply assigned_inv_step.
Qed.

Lemma returned_slots sched v sl :
  slots_wf -> NewSchema schema sched = Some v ->
  slot_out sl v = map buildSchemaChild (slot_in sl schema).
Proof.
  intros Hwf Hv. apply NewSchema_Some in Hv as (st & Hrun & Hpc & <-).
  assert (assigned_inv st) as Ha.
  { eapply assigned_inv_run; [done|apply Inv_init| |done]. done. }
  unfold assigned_inv in Ha. rewrite Hpc in Ha. apply Ha.
Qed.

(** ** The property map *)

Lemma worker_keys st :
  Inv st -> pc st <> AtLaunch -> map prop_key (workers st) = map entry_key entries.
Proof.
  intros HI Hpc. rewrite <- (inv_workers HI Hpc). rewrite map_map. done.
Qed.

Lemma launched_of_worker st n w : Inv st -> workers st !! n = Some w -> pc st <> AtLaunch.
Proof.
  intros HI Hw Hpc. pose proof (inv_barrier HI) as Hb. unfold barrier_inv in Hb.
  rewrite Hpc in Hb. destruct Hb as (Hws & _). by rewrite Hws in Hw.
Qed.

Lemma props_exact_step a st st' :
  NoDup (map entry_key entries) ->
  Inv st -> props_exact st -> step schema a st = Some st' -> props_exact st'.
Proof.
  intros Hnd HI He Hstep. unfold props_exact in *.
  destruct a.
  - apply step_Launch in Hstep as [Hpc ->]. simpl. intros n w Hw Hst.
    rewrite list_lookup_fmap in Hw. by destruct (entries !! n); simplify_eq/=.
  - apply step_Recv in Hstep as (c & t & Hsl & Hlt & Ht & ->). simpl. done.
  - apply step_Signal in Hstep as (c & cc & cp & Hsl & Hpc & Hge & Hsg & ->). simpl. done.
  - apply step_Lock in Hstep as (w & Hl & Hwn & Hst & ->). simpl.
    intros n' w' Hw' Hst'. destruct (decide (n = n')) as [<-|Hne].
    + rewrite list_lookup_insert_eq in Hw' by (by eapply lookup_lt_Some).
      simplify_eq. unfold prop_key; simpl. apply lookup_insert_eq.
    + rewrite list_lookup_insert_ne in Hw' by done.
      rewrite lookup_insert_ne; [by eapply He|].
      intros Hk. apply Hne.
      pose proof (worker_keys HI (launched_of_worker _ HI Hwn)) as Hkeys.
      rewrite <- Hkeys in Hnd.
      eapply (NoDup_lookup _ n n' (prop_key w) Hnd).
      * by rewrite list_lookup_fmap, Hwn.
      * by rewrite list_lookup_fmap, Hw', Hk.
  - apply step_PropSignal in Hstep as (w & cc & cp & Hwn & Hpc & Hst & ->). simpl.
    intros n' w' Hw' Hst'. destruct (decide (n = n')) as [<-|Hne].
    + rewrite list_lookup_insert_eq in Hw' by (by eapply lookup_lt_Some).
      simplify_eq. unfold prop_key; simpl. apply (He n w Hwn). by rewrite Hst.
    + rewrite list_lookup_insert_ne in Hw' by done. by eapply He.
  - apply step_Assign in Hstep as (n & Hpc & Hl & Hcs & Hp & Hk & Hws & Hcase).
    by rewrite Hp, Hws.
  - apply step_Unlock in Hstep as (w & Hwn & Hst & ->). simpl.
    intros n' w' Hw' Hst'. destruct (decide (n = n')) as [<-|Hne].
    + rewrite list_lookup_insert_eq in Hw' by (by eapply lookup_lt_Some).
      simplify_eq. unfold prop_key; simpl. apply (He n w Hwn). by rewrite Hst.
    + rewrite list_lookup_insert_ne in Hw' by done. by eapply He.
  - apply step_RacyAssign in Hstep as (n & Hpc & Hl & Hcs & Hp & Hk & Hws & Hcase).
    by rewrite Hp, Hws.
Qed.

Lemma props_exact_run sched st st' :
  NoDup (map entry_key entries) ->
  Inv st -> props_exact st -> run schema sched st = Some st' -> props_exact st'.
Proof.
  intros Hnd. revert st. induction sched as [|a sched IH]; intros st HI Ha Hrun;
    simpl in Hrun.
  - by simplify_eq.
  - destruct (step schema a st) as [st1|] eqn:Hstep; [|done].
    eapply IH; [| |done].
    + by eapply Inv_step.
    + by eapply props_exact_step.
Qed.

Lemma props_exact_init : props_exact (init schema).
Proof. intros n w Hw. by simpl in Hw. Qed.

(** Past the barrier the send of every property worker has been taken. *)
Lemma past_barrier_workers st n e :
  Inv st -> (pc st = AtReturn \/ exists m, pc st = AtAssign m) ->
  entries !! n = Some e ->
  exists w, workers st !! n = Some w /\ prop_entry w = e /\ sent w = 1.
Proof.
  intros HI Hpc He. destruct (past_barrier_total HI Hpc) as [_ Hcnt].
  assert (pc st <> AtLaunch) as Hl by (destruct Hpc as [->|[m ->]]; done).
  pose proof (inv_workers HI Hl) as Hws.
  assert (length (workers st) = totalProps schema) as Hlen.
  { unfold totalProps. fold entries. rewrite <- Hws. by rewrite length_map. }
  rewrite <- Hws in He. rewrite list_lookup_fmap in He.
  destruct (workers st !! n) as [w|] eqn:Hw; simplify_eq/=.
  exists w. split; [done|]. split; [done|].
  eapply count_sent_all; [|done]. lia.
Qed.

(** The returned map: one entry per input entry, under the entry's key. *)
Lemma returned_props sched v :
  NoDup (map entry_key entries) ->
  NewSchema schema sched = Some v ->
  (forall k x, (k, x) ∈ entries ->
     Schema.Properties v !! KeyReference.Value k = Some (buildProps_proxy k x))
  /\ dom (Schema.Properties v) = list_to_set (map entry_key entries).
Proof.
  intros Hnd Hv. apply NewSchema_Some in Hv as (st & Hrun & Hpc & <-).
  pose proof (Inv_reachable _ Hrun) as HI.
  pose proof (props_exact_run sched Hnd Inv_init props_exact_init Hrun) as He.
  destruct (inv_scalars HI) as [_ ->].
  assert (forall k x, (k, x) ∈ entries ->
            props st !! KeyReference.Value k = Some (buildProps_proxy k x)) as Hall.
  { intros k x Hin. apply list_elem_of_lookup in Hin as [n Hn].
    destruct (past_barrier_workers n HI (or_introl Hpc) Hn) as (w & Hw & Hwe & Hst).
    specialize (He n w Hw (sent_written _ Hst)).
    unfold prop_entry in Hwe. unfold prop_key in He. by simplify_eq. }
  split; [done|].
  apply set_eq. intros k. rewrite elem_of_dom, elem_of_list_to_set. split.
  - intros Hk. destruct (inv_props HI k Hk) as (n & w & Hw & _ & <-).
    rewrite <- (worker_keys HI) by (by rewrite Hpc).
    apply list_elem_of_fmap. exists w. split; [done|]. by eapply list_elem_of_lookup_2.
  - intros Hk. apply list_elem_of_fmap in Hk as ([k' x] & -> & Hin).
    unfold entry_key; simpl. by rewrite (Hall _ _ Hin).
Qed.

(** ** One slot's coordinator *)

(** When the receive loop of a coordinator is over, no child is left blocked
    and the slice holds the proxies of all the input's elements. *)
Lemma collected_slot st sl c :
  Inv st -> slot_get sl (coords st) = Some c -> totalSchemas c <= j c ->
  bChan c = []
  /\ length (slot_get sl (locals st)) = length (slot_in sl schema)
  /\ Permutation (slot_get sl (locals st)) (map buildSchemaChild (slot_in sl schema)).
Proof.
  intros HI Hsl Hge. pose proof (inv_coord HI sl) as Hc. unfold coord_inv in Hc.
  rewrite Hsl in Hc. destruct Hc as (He & Htot & Hj & Hp & Hs).
  apply Permutation_length in Hp as Hlen. rewrite length_app, length_map in Hlen.
  assert (bChan c = []) as Hb by (apply length_zero_iff_nil; lia).
  rewrite Hb, app_nil_r in Hp. rewrite Hb in Hlen. simpl in Hlen.
  split; [done|]. split; [lia|done].
Qed.

(** A coordinator can always finish its receive loop: while [j] is short of
    [totalSchemas] a child is blocked on [bChan]. *)
Lemma can_collect st sl c :
  Inv st -> slot_get sl (coords st) = Some c ->
  exists sched st' c',
    run schema sched st = Some st'
    /\ slot_get sl (coords st') = Some c' /\ totalSchemas c' <= j c'.
Proof.
  remember (totalSchemas c - j c) as k eqn:Hk.
  revert st c Hk. induction k as [|k IH]; intros st c Hk HI Hsl.
  - exists [], st, c. repeat split; [done|lia].
  - pose proof (inv_coord HI sl) as Hc. unfold coord_inv in Hc. rewrite Hsl in Hc.
    destruct Hc as (He & Htot & Hj & Hp & Hs).
    apply Permutation_length in Hp. rewrite length_app, length_map in Hp.
    destruct (bChan c) as [|t b] eqn:Hb; [simpl in Hp; lia|].
    assert (exists st1, step schema (Recv sl 0) st = Some st1) as [st1 Hstep].
    { unfold step. rewrite Hsl, Hb.
      assert ((j c <? totalSchemas c) = true) as -> by (apply Nat.ltb_lt; lia).
      simpl. eauto. }
    pose proof (Inv_step _ HI Hstep) as HI1.
    pose proof Hstep as Hst1. apply step_Recv in Hst1 as (c0 & t0 & Hsl0 & _ & _ & Hst1).
    assert (c0 = c) as -> by congruence.
    destruct (IH st1 {| totalSchemas := totalSchemas c; j := S (j c);
                        bChan := delete 0 (bChan c); signalled := signalled c |})
      as (sched & st' & c' & Hrun & Hsl' & Hge).
    + simpl. lia.
    + done.
    + rewrite Hst1. simpl. apply slot_get_set_eq.
    + exists (Recv sl 0 :: sched), st', c'. split; [|done]. cbn [run]. by rewrite Hstep.
Qed.

Lemma ordered_step sl a st st' :
  Inv st -> ordered sl st -> receives_first sl a ->
  step schema a st = Some st' -> ordered sl st'.
Proof.
  intros HI Ho Hfirst Hstep. unfold ordered in *.
  destruct a.
  - apply step_Launch in Hstep as [Hpc ->]. simpl.
    pose proof (inv_barrier HI) as Hb. unfold barrier_inv in Hb. rewrite Hpc in Hb.
    destruct Hb as (_ & _ & Hcs).
    pose proof (inv_coord HI sl) as Hc. unfold coord_inv in Hc. rewrite Hcs in Hc.
    assert (slot_get sl (locals st) = []) as -> by (destruct sl; simpl in Hc; tauto).
    replace (slot_get sl _) with (startCoordinator (slot_ref sl schema)) by (by destruct sl).
    unfold startCoordinator. by destruct (IsEmpty (slot_ref sl schema)).
  - apply step_Recv in Hstep as (c & t & Hsl & Hlt & Ht & ->). simpl.
    rewrite !slot_get_set. case_decide as E; [subst sl0|done].
    rewrite Hsl in Ho. rewrite (Hfirst n eq_refl) in Ht |- *. simpl.
    destruct (bChan c) as [|t' b]; simplify_eq/=. by rewrite <- app_assoc.
  - apply step_Signal in Hstep as (c & cc & cp & Hsl & Hpc & Hge & Hsg & ->). simpl.
    rewrite !slot_get_set. case_decide as E; [subst sl0|done]. by rewrite Hsl in Ho.
  - apply step_Lock in Hstep as (w & Hl & Hw & Hst & ->). simpl. done.
  - apply step_PropSignal in Hstep as (w & cc & cp & Hw & Hpc & Hst & ->). simpl. done.
  - apply step_Assign in Hstep as (n & Hpc & Hl & Hcs & _). by rewrite Hl, Hcs.
  - apply step_Unlock in Hstep as (w & Hw & Hst & ->). simpl. done.
  - apply step_RacyAssign in Hstep as (n & Hpc & Hl & Hcs & _). by rewrite Hl, Hcs.
Qed.

Lemma ordered_run sl sched st st' :
  Inv st -> ordered sl st -> Forall (receives_first sl) sched ->
  run schema sched st = Some st' -> ordered sl st'.
Proof.
  revert st. induction sched as [|a sched IH]; intros st HI Ho Hf Hrun; simpl in Hrun.
  - by simplify_eq.
  - destruct (step schema a st) as [st1|] eqn:Hstep; [|done].
    apply Forall_cons in Hf as [Ha Hf].
    eapply IH; [| |done|done].
    + by eapply Inv_step.
    + by eapply ordered_step.
Qed.

(** ** No signal expected *)

Lemma not_waiting_step a st st' :
  totalProps schema + totalChildren schema = 0 ->
  not_waiting st -> step schema a st = Some st' -> not_waiting st'.
Proof.
  intros Hz Hn Hstep cc cp. unfold not_waiting in Hn.
  destruct a.
  - apply step_Launch in Hstep as [Hpc ->]. simpl. by rewrite Hz.
  - apply step_Recv in Hstep as (c & t & Hsl & Hlt & Ht & ->). simpl. done.
  - apply step_Signal in Hstep as (c & cc' & cp' & Hsl & Hpc & _). by apply Hn in Hpc.
  - apply step_Lock in Hstep as (w & Hl & Hw & Hst & ->). simpl. done.
  - apply step_PropSignal in Hstep as (w & cc' & cp' & Hw & Hpc & _). by apply Hn in Hpc.
  - apply step_Assign in Hstep as (n & Hpc & _ & _ & _ & _ & _ & Hcase).
    destruct Hcase as [(_ & _ & ->)|[(_ & _ & ->)|[(_ & _ & ->)|[(_ & _ & ->)|(_ & _ & ->)]]]];
      done.
  - apply step_Unlock in Hstep as (w & Hw & Hst & ->). simpl. done.
  - apply step_RacyAssign in Hstep as (n & Hpc & _ & _ & _ & _ & _ & Hcase).
    destruct Hcase as [(_ & _ & ->)|[(_ & _ & ->)|[(_ & _ & ->)|[(_ & _ & ->)|(_ & _ & ->)]]]];
      done.
Qed.

Lemma not_waiting_run sched st st' :
  totalProps schema + totalChildren schema = 0 ->
  not_waiting st -> run schema sched st = Some st' -> not_waiting st'.
Proof.
  intros Hz. revert st. induction sched as [|a sched IH]; intros st Hn Hrun; simpl in Hrun.
  - by simplify_eq.
  - destruct (step schema a st) as [st1|] eqn:Hstep; [|done].
    eapply IH; [|done]. by eapply not_waiting_step.
Qed.

Lemma straight_returns :
  totalProps schema + totalChildren schema = 0 ->
  NewSchema schema straight = Some (NewSchema_sync schema).
Proof.
  intros Hz. unfold NewSchema, straight, run, step. simpl. rewrite Hz. simpl. reflexivity.
Qed.

(** ** Progress and termination *)

Lemma afterReceive_pending cc cp cc' cp' :
  afterReceive schema cc cp = AtBarrier cc' cp' -> allDone schema cc' cp' = false.
Proof.
  unfold afterReceive. destruct (allDone schema cc cp) eqn:E; [done|].
  intros ?. by simplify_eq.
Qed.

Lemma lock_inv_step a st st' :
  Inv st -> lock_inv st -> step schema a st = Some st' -> lock_inv st'.
Proof.
  intros HI Hl Hstep. unfold lock_inv in *.
  destruct a.
  - apply step_Launch in Hstep as [Hpc ->]. simpl. intros Hk.
    destruct (Hl Hk) as (n & w & Hw & _).
    by destruct (launched_of_worker _ HI Hw).
  - apply step_Recv in Hstep as (c & t & Hsl & Hlt & Ht & ->). simpl. done.
  - apply step_Signal in Hstep as (c & cc & cp & Hsl & Hpc & Hge & Hsg & ->). simpl. done.
  - apply step_Lock in Hstep as (w & Hlk & Hw & Hst & ->). simpl. intros _.
    exists n, {| prop_k := prop_k w; prop_v := prop_v w; prop_status := PropSending |}.
    split; [|by left]. apply list_lookup_insert_eq. by eapply lookup_lt_Some.
  - apply step_PropSignal in Hstep as (w & cc & cp & Hw & Hpc & Hst & ->). simpl. intros _.
    exists n, {| prop_k := prop_k w; prop_v := prop_v w; prop_status := PropSent |}.
    split; [|by right]. apply list_lookup_insert_eq. by eapply lookup_lt_Some.
  - apply step_Assign in Hstep as (n & Hpc & _ & _ & _ & Hk & Hw & Hcase).
    by rewrite Hk, Hw.
  - apply step_Unlock in Hstep as (w & Hw & Hst & ->). simpl. done.
  - apply step_RacyAssign in Hstep as (n & Hpc & _ & _ & _ & Hk & Hw & Hcase).
    by rewrite Hk, Hw.
Qed.

Lemma pending_inv_step a st st' :
  pending_inv st -> step schema a st = Some st' -> pending_inv st'.
Proof.
  intros Hp Hstep. unfold pending_inv in *.
  destruct a.
  - apply step_Launch in Hstep as [Hpc ->]. simpl. intros cc cp.
    destruct (0 <? totalProps schema + totalChildren schema) eqn:E; [|done].
    intros ?; simplify_eq. apply Nat.ltb_lt in E. unfold allDone.
    destruct (totalProps schema); [|done]. destruct (totalChildren schema); [lia|done].
  - apply step_Recv in Hstep as (c & t & Hsl & Hlt & Ht & ->). simpl. done.
  - apply step_Signal in Hstep as (c & cc & cp & Hsl & Hpc & Hge & Hsg & ->). simpl.
    intros cc' cp'. apply afterReceive_pending.
  - apply step_Lock in Hstep as (w & Hlk & Hw & Hst & ->). simpl. done.
  - apply step_PropSignal in Hstep as (w & cc & cp & Hw & Hpc & Hst & ->). simpl.
    intros cc' cp'. apply afterReceive_pending.
  - apply step_Assign in Hstep as (n & Hpc & _ & _ & _ & _ & _ & Hcase).
    intros cc cp Hb.
    destruct Hcase as [(_ & _ & E)|[(_ & _ & E)|[(_ & _ & E)|[(_ & _ & E)|(_ & _ & E)]]]];
      congruence.
  - apply step_Unlock in Hstep as (w & Hw & Hst & ->). simpl. done.
  - apply step_RacyAssign in Hstep as (n & Hpc & _ & _ & _ & _ & _ & Hcase).
    intros cc cp Hb.
    destruct Hcase as [(_ & _ & E)|[(_ & _ & E)|[(_ & _ & E)|[(_ & _ & E)|(_ & _ & E)]]]];
      congruence.
Qed.

Lemma Live_init : Live (init schema).
Proof. split; [apply Inv_init|done|done]. Qed.

Lemma Live_step a st st' : Live st -> step schema a st = Some st' -> Live st'.
Proof.
  intros [HI Hl Hp] Hstep. split.
  - by eapply Inv_step.
  - by eapply lock_inv_step.
  - by eapply pending_inv_step.
Qed.

Lemma Live_run sched st st' : Live st -> run schema sched st = Some st' -> Live st'.
Proof.
  revert st. induction sched as [|a sched IH]; intros st HL Hrun; simpl in Hrun.
  - by simplify_eq.
  - destruct (step schema a st) as [st1|] eqn:Hstep; [|done].
    eapply IH; [|done]. by eapply Live_step.
Qed.

Lemma run_app sched1 sched2 st st1 :
  run schema sched1 st = Some st1 ->
  run schema (sched1 ++ sched2) st = run schema sched2 st1.
Proof.
  revert st. induction sched1 as [|a sched1 IH]; intros st Hrun; simpl in *.
  - by simplify_eq.
  - destruct (step schema a st) as [st'|]; [|done]. by apply IH.
Qed.

(** Workers: one in a given status, or none. *)
Lemma status_or_not (x : PropStatus) (ws : list PropWorker) :
  (exists n w, ws !! n = Some w /\ prop_status w = x)
  \/ (forall n w, ws !! n = Some w -> prop_status w <> x).
Proof.
  induction ws as [|a ws IH].
  - right. intros n w Hw. done.
  - destruct (decide (prop_status a = x)) as [Ha|Ha].
    + left. by exists 0, a.
    + destruct IH as [(n & w & Hw & Hst)|IH].
      * left. by exists (S n), w.
      * right. intros [|n] w Hw; simplify_eq/=; eauto.
Qed.

Lemma not_all_sent (ws : list PropWorker) :
  count_sent ws < length ws ->
  exists n w, ws !! n = Some w
              /\ (prop_status w = PropStarted \/ prop_status w = PropSending).
Proof.
  unfold count_sent. induction ws as [|a ws IH]; simpl; [lia|]. intros Hlt.
  destruct (prop_status a) eqn:Ha.
  - exists 0, a. auto.
  - exists 0, a. auto.
  - unfold sent at 1 in Hlt. rewrite Ha in Hlt.
    destruct IH as (n & w & Hw & Hst); [lia|]. by exists (S n), w.
  - unfold sent at 1 in Hlt. rewrite Ha in Hlt.
    destruct IH as (n & w & Hw & Hst); [lia|]. by exists (S n), w.
Qed.

Lemma progress st :
  slots_wf -> at_most_one_each -> Live st -> pc st <> AtReturn ->
  exists a st', step schema a st = Some st'.
Proof.
  intros Hwf Hone [HI Hl Hp] Hpc.
  pose proof (inv_barrier HI) as Hb. unfold barrier_inv in Hb.
  destruct (pc st) as [|cc cp|n|] eqn:Epc; [| | |done].
  - exists Launch. unfold step. rewrite Epc. eauto.
  - destruct Hb as [Hcc Hcp].
    pose proof (Hp cc cp Epc) as Hnd. unfold allDone in Hnd.
    assert (pc st <> AtLaunch) as Hla by (by rewrite Epc).
    pose proof (inv_workers HI Hla) as Hws.
    assert (length (workers st) = totalProps schema) as Hlen.
    { unfold totalProps. fold entries. rewrite <- Hws. by rewrite length_map. }
    pose proof (count_sent_le (workers st)) as Hle.
    destruct (decide (cp = totalProps schema)) as [HK|HK].
    + (* a coordinator has yet to signal *)
      rewrite HK, Nat.eqb_refl in Hnd. simpl in Hnd. apply Nat.eqb_neq in Hnd.
      assert (exists sl, sig (slot_get sl (coords st)) < length (slot_in sl schema))
        as [sl Hsl].
      { rewrite totalChildren_slots in Hnd. rewrite Hcc in Hnd.
        pose proof (sig_le_length SlotAllOf Hwf HI).
        pose proof (sig_le_length SlotOneOf Hwf HI).
        pose proof (sig_le_length SlotAnyOf Hwf HI).
        pose proof (sig_le_length SlotItems Hwf HI).
        pose proof (sig_le_length SlotNot Hwf HI).
        unfold count_signalled in Hnd. simpl in *.
        destruct (decide (sig (allOf (coords st)) < length (slot_in SlotAllOf schema)));
          [by exists SlotAllOf|].
        destruct (decide (sig (oneOf (coords st)) < length (slot_in SlotOneOf schema)));
          [by exists SlotOneOf|].
        destruct (decide (sig (anyOf (coords st)) < length (slot_in SlotAnyOf schema)));
          [by exists SlotAnyOf|].
        destruct (decide (sig (items (coords st)) < length (slot_in SlotItems schema)));
          [by exists SlotItems|].
        destruct (decide (sig (not_ (coords st)) < length (slot_in SlotNot schema)));
          [by exists SlotNot|].
        lia. }
      pose proof (inv_coord HI sl) as Hc. unfold coord_inv in Hc.
      specialize (Hone sl).
      destruct (slot_get sl (coords st)) as [c|] eqn:Ec.
      * destruct Hc as (He & Htot & Hj & Hperm & Hs). simpl in Hsl.
        destruct (signalled c) eqn:Esg; [lia|].
        destruct (decide (j c < totalSchemas c)) as [Hjt|Hjt].
        -- apply Permutation_length in Hperm. rewrite length_app, length_map in Hperm.
           destruct (bChan c) as [|t b] eqn:Eb; [simpl in Hperm; lia|].
           exists (Recv sl 0). unfold step. rewrite Ec.
           apply Nat.ltb_lt in Hjt. rewrite Hjt, Eb. simpl. eauto.
        -- exists (Signal sl). unfold step. rewrite Ec, Epc.
           assert ((j c <? totalSchemas c) = false) as -> by (apply Nat.ltb_ge; lia).
           rewrite Esg. simpl. eauto.
      * destruct Hc as [_ Hc]. specialize (Hc Hla). simpl in Hsl.
        apply Hwf in Hc. rewrite Hc in Hsl. simpl in Hsl. lia.
    + (* a property worker has yet to signal *)
      destruct (not_all_sent (workers st)) as (n & w & Hw & Hst); [lia|].
      destruct (status_or_not PropSending (workers st)) as [(n' & w' & Hw' & Hst')|Hnone].
      * exists (PropSignal n'). unfold step. rewrite Hw', Epc, Hst'. eauto.
      * destruct (status_or_not PropSent (workers st)) as [(n' & w' & Hw' & Hst')|Hnone'].
        -- (* the worker whose signal came last has yet to unlock *)
           exists (Unlock n'). unfold step. rewrite Hw', Hst'. eauto.
        -- exists (Lock n). unfold step.
           destruct (plock st) eqn:Ek.
           { destruct (Hl Ek) as (n' & w' & Hw' & [Hst'|Hst']).
             - by destruct (Hnone n' w' Hw').
             - by destruct (Hnone' n' w' Hw'). }
           rewrite Hw. specialize (Hnone n w Hw).
           destruct Hst as [->|Hst]; [eauto|done].
  - exists Assign. unfold step. rewrite Epc.
    destruct n as [|[|[|[|n]]]]; eauto.
Qed.

Lemma coords_work_set sl x cs :
  coords_work (slot_set sl x cs) + work (slot_get sl cs) = coords_work cs + work x.
Proof. destruct sl; unfold coords_work; simpl; lia. Qed.

Lemma sum_list_with_insert (f : PropWorker -> nat) ws n w w' :
  ws !! n = Some w ->
  sum_list_with f (<[n := w']> ws) + f w = sum_list_with f ws + f w'.
Proof.
  revert n. induction ws as [|a ws IH]; intros [|n] Hn; simplify_eq/=.
  - lia.
  - specialize (IH _ Hn). lia.
Qed.

Lemma work_startCoordinator r :
  work (startCoordinator r) <= length (NodeReference.Value r) + 1.
Proof. unfold startCoordinator. destruct (IsEmpty r); simpl; lia. Qed.

Lemma todo_started (l : list (KeyRef * ChildRef)) :
  sum_list_with todo (map startWorker l) = 3 * length l.
Proof. induction l as [|e l IH]; simpl; [done|]. rewrite IH. unfold todo; simpl. lia. Qed.

Lemma pc_work_afterReceive cc cp : pc_work (afterReceive schema cc cp) <= 6.
Proof. unfold afterReceive. destruct (allDone schema cc cp); simpl; lia. Qed.

(** Every step uses up some of the work left: no schedule runs forever. *)
Lemma step_decreases a st st' :
  step schema a st = Some st' -> remaining st' < remaining st.
Proof.
  intros Hstep. unfold remaining.
  destruct a.
  - apply step_Launch in Hstep as [Hpc ->]. simpl. rewrite Hpc. simpl.
    rewrite todo_started.
    pose proof (work_startCoordinator (low.Schema.AllOf schema)).
    pose proof (work_startCoordinator (low.Schema.OneOf schema)).
    pose proof (work_startCoordinator (low.Schema.AnyOf schema)).
    pose proof (work_startCoordinator (low.Schema.Items schema)).
    pose proof (work_startCoordinator (low.Schema.Not schema)).
    unfold coords_work, totalChildren, totalProps; simpl. fold entries.
    destruct (0 <? _); simpl; lia.
  - apply step_Recv in Hstep as (c & t & Hsl & Hlt & Ht & ->). simpl.
    pose proof (coords_work_set sl
      (Some {| totalSchemas := totalSchemas c; j := S (j c);
               bChan := delete n (bChan c); signalled := signalled c |}) (coords st)) as Hw.
    rewrite Hsl in Hw. simpl in Hw. lia.
  - apply step_Signal in Hstep as (c & cc & cp & Hsl & Hpc & Hge & Hsg & ->). simpl.
    pose proof (coords_work_set sl
      (Some {| totalSchemas := totalSchemas c; j := j c;
               bChan := bChan c; signalled := true |}) (coords st)) as Hw.
    rewrite Hsl in Hw. simpl in Hw. rewrite Hsg in Hw.
    pose proof (pc_work_afterReceive (S cc) cp). rewrite Hpc. simpl. lia.
  - apply step_Lock in Hstep as (w & Hlk & Hw & Hst & ->). simpl.
    pose proof (@sum_list_with_insert todo _ _ _
      {| prop_k := prop_k w; prop_v := prop_v w; prop_status := PropSending |} Hw) as Hs.
    unfold todo in Hs at 2 4. rewrite Hst in Hs. simpl in Hs. lia.
  - apply step_PropSignal in Hstep as (w & cc & cp & Hw & Hpc & Hst & ->). simpl.
    pose proof (@sum_list_with_insert todo _ _ _
      {| prop_k := prop_k w; prop_v := prop_v w; prop_status := PropSent |} Hw) as Hs.
    unfold todo in Hs at 2 4. rewrite Hst in Hs. simpl in Hs.
    pose proof (pc_work_afterReceive cc (S cp)). rewrite Hpc. simpl. lia.
  - apply step_Assign in Hstep as (n & Hpc & _ & -> & _ & _ & -> & Hcase).
    rewrite Hpc.
    destruct Hcase as [(-> & _ & ->)|[(-> & _ & ->)|[(-> & _ & ->)
                      |[(-> & _ & ->)|(Hn & _ & ->)]]]]; simpl; lia.
  - apply step_Unlock in Hstep as (w & Hw & Hst & ->). simpl.
    pose proof (@sum_list_with_insert todo _ _ _
      {| prop_k := prop_k w; prop_v := prop_v w; prop_status := PropReturned |} Hw) as Hs.
    unfold todo in Hs at 2 4. rewrite Hst in Hs. simpl in Hs. lia.
  - apply step_RacyAssign in Hstep as (n & Hpc & _ & -> & _ & _ & -> & Hcase).
    rewrite Hpc.
    destruct Hcase as [(-> & _ & ->)|[(-> & _ & ->)|[(-> & _ & ->)
                      |[(-> & _ & ->)|(Hn & _ & ->)]]]]; simpl; lia.
Qed.

Lemma run_length sched st st' :
  run schema sched st = Some st' -> length sched + remaining st' <= remaining st.
Proof.
  revert st. induction sched as [|a sched IH]; intros st Hrun; simpl in Hrun.
  - simplify_eq. simpl. lia.
  - destruct (step schema a st) as [st1|] eqn:Hstep; [|done].
    apply step_decreases in Hstep. apply IH in Hrun. simpl. lia.
Qed.

(** With well-formed slots of at most one element, whatever has been
    scheduled so far can be continued up to the caller's return. *)
Lemma can_return st :
  slots_wf -> at_most_one_each -> Live st ->
  exists sched st', run schema sched st = Some st' /\ pc st' = AtReturn.
Proof.
  intros Hwf Hone. remember (remaining st) as m eqn:Hm.
  revert st Hm. induction (lt_wf m) as [m _ IH]. intros st -> HL.
  destruct (decide (pc st = AtReturn)) as [Hpc|Hpc].
  - by exists [], st.
  - destruct (progress Hwf Hone HL Hpc) as (a & st1 & Hstep).
    destruct (IH (remaining st1) (step_decreases _ _ Hstep) st1 eq_refl)
      as (sched & st' & Hrun & Hret).
    { by eapply Live_step. }
    exists (a :: sched), st'. simpl. by rewrite Hstep.
Qed.

Lemma Live_reachable sched st : run schema sched (init schema) = Some st -> Live st.
Proof. apply Live_run, Live_init. Qed.

(** ** Returning *)

Lemma never_returns sched :
  launched_slots < totalChildren schema -> NewSchema schema sched = None.
Proof.
  intros Hlt. destruct (NewSchema schema sched) as [v|] eqn:Hv; [|done].
  apply NewSchema_Some in Hv as (st & Hrun & Hpc & _).
  destruct (never_past_barrier _ Hlt Hrun) as [Hl|(cc & cp & Hb & _)]; congruence.
Qed.

Lemma started_le_length sl : slots_wf -> started sl <= length (slot_in sl schema).
Proof.
  intros Hwf. unfold started.
  destruct (IsEmpty (slot_ref sl schema)) eqn:He; [lia|].
  destruct (slot_in sl schema) eqn:Hin; [|simpl; lia].
  apply Hwf in Hin. congruence.
Qed.

Lemma started_le_1 sl : started sl <= 1.
Proof. unfold started. destruct (IsEmpty (slot_ref sl schema)); lia. Qed.

Lemma crowded_slot sl :
  slots_wf -> 2 <= length (slot_in sl schema) -> launched_slots < totalChildren schema.
Proof.
  intros Hwf Hsl. rewrite totalChildren_slots. unfold launched_slots.
  pose proof (started_le_length SlotAllOf Hwf). pose proof (started_le_length SlotOneOf Hwf).
  pose proof (started_le_length SlotAnyOf Hwf). pose proof (started_le_length SlotItems Hwf).
  pose proof (started_le_length SlotNot Hwf).
  pose proof (started_le_1 sl). destruct sl; lia.
Qed.

Lemma returns_of_run sched st :
  run schema sched (init schema) = Some st -> pc st = AtReturn ->
  NewSchema schema sched = Some (s st).
Proof. intros Hrun Hpc. unfold NewSchema. by rewrite Hrun, Hpc. Qed.

(** ** Further invariants *)

(** A slice holds proxies of its own slot, and nothing while no coordinator
    runs for the slot. *)
Lemma locals_sub st sl :
  Inv st ->
  slot_get sl (locals st) ⊆+ map buildSchemaChild (slot_in sl schema)
  /\ (IsEmpty (slot_ref sl schema) = true -> slot_get sl (locals st) = []).
Proof.
  intros HI. pose proof (inv_coord HI sl) as Hc. unfold coord_inv in Hc.
  destruct (slot_get sl (coords st)) as [c|].
  - destruct Hc as (He & _ & _ & Hp & _). split; [|congruence].
    transitivity (slot_get sl (locals st) ++ bChan c).
    + by apply submseteq_inserts_r.
    + by apply Permutation_submseteq.
  - destruct Hc as [-> _]. split; [apply submseteq_nil_l|done].
Qed.

(** The two assignments, slot by slot. *)
Lemma step_Assign_slot st st' :
  step schema Assign st = Some st' ->
  exists n,
    pc st = AtAssign n /\ pc st' = after_assign n
    /\ s st' = slot_assign (assigned n) (slot_get (assigned n) (locals st)) (s st)
    /\ locals st' = locals st /\ coords st' = coords st.
Proof.
  intros Hstep. unfold step in Hstep.
  destruct (pc st) as [| | n|]; try done. exists n.
  destruct n as [|[|[|[|n]]]]; by simplify_eq/=.
Qed.

Lemma step_RacyAssign_slot v st st' :
  step schema (RacyAssign v) st = Some st' ->
  exists n,
    pc st = AtAssign n /\ pc st' = after_assign n
    /\ s st' = slot_assign (assigned n) v (s st)
    /\ locals st' = locals st /\ coords st' = coords st
    /\ unordered (slot_get (assigned n) (coords st)) = true.
Proof.
  intros Hstep. unfold step in Hstep.
  destruct (pc st) as [| | n|]; try done. exists n.
  destruct (unordered (slot_get (assigned n) (coords st))); [|done].
  destruct n as [|[|[|[|n]]]]; by simplify_eq/=.
Qed.

Lemma slot_out_assign sl sl' x v :
  slot_out sl (slot_assign sl' x v) = if decide (sl = sl') then x else slot_out sl v.
Proof. by destruct v, sl, sl'. Qed.

Lemma assigned_at_own n : n <= 4 -> assigned_at (assigned n) (after_assign n) = true.
Proof. intros Hn. by destruct n as [|[|[|[|[|n]]]]]; [..|lia]. Qed.

Lemma assigned_at_other sl n :
  n <= 4 -> sl <> assigned n ->
  assigned_at sl (after_assign n) = assigned_at sl (AtAssign n).
Proof. intros Hn Hne. by destruct n as [|[|[|[|[|n]]]]], sl; [..|lia|lia|lia|lia|lia]. Qed.

Lemma after_assign_le n m : n <= 4 -> after_assign n = AtAssign m -> m <= 4.
Proof.
  intros Hn. unfold after_assign. destruct (n <? 4) eqn:E; [|done].
  apply Nat.ltb_lt in E. intros ?; simplify_eq. lia.
Qed.

Lemma afterReceive_unassigned sl cc cp : assigned_at sl (afterReceive schema cc cp) = false.
Proof. unfold afterReceive. by destruct (allDone schema cc cp). Qed.

Lemma afterReceive_le cc cp n : afterReceive schema cc cp = AtAssign n -> n <= 4.
Proof.
  unfold afterReceive. destruct (allDone schema cc cp); [|done].
  intros ?; simplify_eq. lia.
Qed.

Lemma fields_inv_step a st st' :
  Inv st -> fields_inv st -> step schema a st = Some st' -> fields_inv st'.
Proof.
  intros HI [Hn Hf] Hstep. unfold fields_inv.
  destruct a.
  - (* Launch *)
    apply step_Launch in Hstep as [Hpc ->]. simpl. split.
    + intros n. destruct (0 <? _); [done|]. intros ?; simplify_eq. lia.
    + intros sl. specialize (Hf sl). rewrite Hpc in Hf. simpl in Hf.
      by destruct (0 <? _).
  - (* Recv: the slot that receives is not synchronised *)
    apply step_Recv in Hstep as (c & t & Hsl & Hlt & Ht & ->). simpl.
    split; [done|]. intros sl'. specialize (Hf sl').
    destruct (assigned_at sl' (pc st)); [|done].
    unfold synchronised in *. simpl. rewrite !slot_get_set.
    case_decide as E; [subst sl'|done].
    pose proof (inv_coord HI sl) as Hc. unfold coord_inv in Hc. rewrite Hsl in Hc.
    destruct Hc as (_ & _ & _ & _ & Hs). simpl.
    destruct (signalled c); [specialize (Hs eq_refl); lia|].
    simpl. intros Hz. apply Nat.ltb_ge in Hz. lia.
  - (* Signal: nothing is assigned yet *)
    apply step_Signal in Hstep as (c & cc & cp & Hsl & Hpc & Hge & Hsg & ->). simpl.
    split; [apply afterReceive_le|].
    intros sl'. rewrite afterReceive_unassigned.
    specialize (Hf sl'). by rewrite Hpc in Hf.
  - (* Lock *)
    apply step_Lock in Hstep as (w & Hl & Hw & Hst & ->). simpl.
    split; [done|]. intros sl. rewrite slot_out_set_Properties. apply Hf.
  - (* PropSignal *)
    apply step_PropSignal in Hstep as (w & cc & cp & Hw & Hpc & Hst & ->). simpl.
    split; [apply afterReceive_le|].
    intros sl'. rewrite afterReceive_unassigned.
    specialize (Hf sl'). by rewrite Hpc in Hf.
  - (* Assign *)
    apply step_Assign_slot in Hstep as (n & Hpc & Hpc' & Hs & Hl & Hcs).
    pose proof (Hn n Hpc) as Hle. rewrite Hpc'. split.
    + intros m. by apply after_assign_le.
    + intros sl. rewrite Hs, slot_out_assign. unfold synchronised. rewrite Hl, Hcs.
      case_decide as E.
      * subst sl. by rewrite assigned_at_own.
      * rewrite assigned_at_other by done. specialize (Hf sl). by rewrite Hpc in Hf.
  - (* Unlock *)
    apply step_Unlock in Hstep as (w & Hw & Hst & ->). simpl. by split.
  - (* RacyAssign: the slot assigned is not synchronised *)
    apply step_RacyAssign_slot in Hstep as (n & Hpc & Hpc' & Hs & Hl & Hcs & Hun).
    pose proof (Hn n Hpc) as Hle. rewrite Hpc'. split.
    + intros m. by apply after_assign_le.
    + intros sl. rewrite Hs, slot_out_assign. unfold synchronised. rewrite Hl, Hcs.
      case_decide as E.
      * subst sl. rewrite assigned_at_own by done. congruence.
      * rewrite assigned_at_other by done. specialize (Hf sl). by rewrite Hpc in Hf.
Qed.

Lemma holding_iff w : holding w = 1 <-> holds_lock w.
Proof.
  unfold holding, holds_lock. destruct (prop_status w); split; try done; try tauto; try lia.
  - intros [|]; done.
  - intros [|]; done.
Qed.

Lemma count_holding_pos ws n w :
  ws !! n = Some w -> holds_lock w -> 1 <= count_holding ws.
Proof.
  unfold count_holding. revert n.
  induction ws as [|b ws IH]; intros i Hi Hx; [done|].
  destruct i as [|i]; simplify_eq/=.
  - apply holding_iff in Hx. lia.
  - specialize (IH _ Hi Hx). lia.
Qed.

Lemma count_holding_le_1 ws n m w w' :
  count_holding ws <= 1 ->
  ws !! n = Some w -> ws !! m = Some w' ->
  holds_lock w -> holds_lock w' -> n = m.
Proof.
  unfold count_holding. revert n m.
  induction ws as [|a ws IH]; intros n m Hc Hn Hm Hw Hw'; [done|].
  simpl in Hc.
  destruct n as [|n], m as [|m]; simplify_eq/=.
  - done.
  - apply holding_iff in Hw. pose proof (count_holding_pos _ _ Hm Hw') as Hpos.
    unfold count_holding in Hpos. lia.
  - apply holding_iff in Hw'. pose proof (count_holding_pos _ _ Hn Hw) as Hpos.
    unfold count_holding in Hpos. lia.
  - f_equal. apply (IH n m); [lia|done..].
Qed.

Lemma count_holding_started (l : list (KeyRef * ChildRef)) :
  count_holding (map startWorker l) = 0.
Proof. unfold count_holding. induction l as [|e l IH]; simpl; [done|]. by rewrite IH. Qed.

Lemma mutex_inv_step a st st' :
  Inv st -> mutex_inv st -> step schema a st = Some st' -> mutex_inv st'.
Proof.
  intros HI Hm Hstep. unfold mutex_inv in *.
  destruct a.
  - apply step_Launch in Hstep as [Hpc ->]. simpl. rewrite count_holding_started.
    pose proof (inv_barrier HI) as Hb. unfold barrier_inv in Hb. rewrite Hpc in Hb.
    destruct Hb as (Hws & _). rewrite Hws in Hm. by destruct (plock st).
  - apply step_Recv in Hstep as (c & t & Hsl & Hlt & Ht & ->). simpl. done.
  - apply step_Signal in Hstep as (c & cc & cp & Hsl & Hpc & Hge & Hsg & ->). simpl. done.
  - apply step_Lock in Hstep as (w & Hl & Hw & Hst & ->). simpl.
    pose proof (@sum_list_with_insert holding _ _ _
      {| prop_k := prop_k w; prop_v := prop_v w; prop_status := PropSending |} Hw) as Hs.
    unfold holding in Hs at 2 4. rewrite Hst in Hs. simpl in Hs.
    rewrite Hl in Hm. unfold count_holding in *. lia.
  - (* the send leaves the lock with the sender *)
    apply step_PropSignal in Hstep as (w & cc & cp & Hw & Hpc & Hst & ->). simpl.
    pose proof (@sum_list_with_insert holding _ _ _
      {| prop_k := prop_k w; prop_v := prop_v w; prop_status := PropSent |} Hw) as Hs.
    unfold holding in Hs at 2 4. rewrite Hst in Hs. simpl in Hs.
    unfold count_holding in *. lia.
  - apply step_Assign in Hstep as (n & Hpc & _ & _ & _ & Hk & Hw & _). by rewrite Hk, Hw.
  - apply step_Unlock in Hstep as (w & Hw & Hst & ->). simpl.
    pose proof (@sum_list_with_insert holding _ _ _
      {| prop_k := prop_k w; prop_v := prop_v w; prop_status := PropReturned |} Hw) as Hs.
    unfold holding in Hs at 2 4. rewrite Hst in Hs. simpl in Hs.
    pose proof (count_holding_pos _ _ Hw (or_intror Hst)) as Hpos.
    unfold count_holding in *. destruct (plock st); lia.
  - apply step_RacyAssign in Hstep as (n & Hpc & _ & _ & _ & Hk & Hw & _).
    by rewrite Hk, Hw.
Qed.

Lemma worker_entry st n w :
  Inv st -> workers st !! n = Some w -> prop_entry w ∈ entries.
Proof.
  intros HI Hw. rewrite <- (inv_workers HI (launched_of_worker _ HI Hw)).
  apply list_elem_of_fmap. exists w. split; [done|]. by eapply list_elem_of_lookup_2.
Qed.

Lemma props_sound_step a st st' :
  Inv st -> props_sound st -> step schema a st = Some st' -> props_sound st'.
Proof.
  intros HI Hs Hstep. unfold props_sound in *.
  destruct a.
  - apply step_Launch in Hstep as [Hpc ->]. simpl. done.
  - apply step_Recv in Hstep as (c & t & Hsl & Hlt & Ht & ->). simpl. done.
  - apply step_Signal in Hstep as (c & cc & cp & Hsl & Hpc & Hge & Hsg & ->). simpl. done.
  - apply step_Lock in Hstep as (w & Hl & Hw & Hst & ->). simpl.
    intros k p Hk. destruct (decide (prop_key w = k)) as [<-|Hne].
    + rewrite lookup_insert_eq in Hk. simplify_eq.
      exists (prop_entry w). split; [by eapply worker_entry|done].
    + rewrite lookup_insert_ne in Hk by done. by apply Hs.
  - apply step_PropSignal in Hstep as (w & cc & cp & Hw & Hpc & Hst & ->). simpl. done.
  - apply step_Assign in Hstep as (n & Hpc & _ & _ & -> & _). done.
  - apply step_Unlock in Hstep as (w & Hw & Hst & ->). simpl. done.
  - apply step_RacyAssign in Hstep as (n & Hpc & _ & _ & -> & _). done.
Qed.

Lemma props_written_step a st st' :
  props_written st -> step schema a st = Some st' -> props_written st'.
Proof.
  intros Hwr Hstep. unfold props_written in *.
  destruct a.
  - apply step_Launch in Hstep as [Hpc ->]. simpl. intros n w Hw Hst.
    rewrite list_lookup_fmap in Hw. by destruct (entries !! n); simplify_eq/=.
  - apply step_Recv in Hstep as (c & t & Hsl & Hlt & Ht & ->). simpl. done.
  - apply step_Signal in Hstep as (c & cc & cp & Hsl & Hpc & Hge & Hsg & ->). simpl. done.
  - apply step_Lock in Hstep as (w & Hl & Hw & Hst & ->). simpl.
    intros n' w' Hw' Hst'. destruct (decide (prop_key w = prop_key w')) as [E|E].
    + rewrite E, lookup_insert_eq. eauto.
    + rewrite lookup_insert_ne by done.
      destruct (decide (n = n')) as [<-|Hne].
      * rewrite list_lookup_insert_eq in Hw' by (by eapply lookup_lt_Some).
        by simplify_eq.
      * rewrite list_lookup_insert_ne in Hw' by done. by eapply Hwr.
  - apply step_PropSignal in Hstep as (w & cc & cp & Hw & Hpc & Hst & ->). simpl.
    intros n' w' Hw' Hst'. destruct (decide (n = n')) as [<-|Hne].
    + rewrite list_lookup_insert_eq in Hw' by (by eapply lookup_lt_Some).
      simplify_eq. unfold prop_key; simpl. apply (Hwr n w Hw). by rewrite Hst.
    + rewrite list_lookup_insert_ne in Hw' by done. by eapply Hwr.
  - apply step_Assign in Hstep as (n & Hpc & _ & _ & -> & _ & -> & _). done.
  - apply step_Unlock in Hstep as (w & Hw & Hst & ->). simpl.
    intros n' w' Hw' Hst'. destruct (decide (n = n')) as [<-|Hne].
    + rewrite list_lookup_insert_eq in Hw' by (by eapply lookup_lt_Some).
      simplify_eq. unfold prop_key; simpl. apply (Hwr n w Hw). by rewrite Hst.
    + rewrite list_lookup_insert_ne in Hw' by done. by eapply Hwr.
  - apply step_RacyAssign in Hstep as (n & Hpc & _ & _ & -> & _ & -> & _). done.
Qed.

Lemma Inv2_init : Inv2 (init schema).
Proof.
  split.
  - apply Live_init.
  - reflexivity.
  - split; [done|]. intros sl. by destruct sl.
  - intros k p Hk. simpl in Hk. by rewrite lookup_empty in Hk.
  - intros n w Hw. by simpl in Hw.
Qed.

Lemma Inv2_step a st st' : Inv2 st -> step schema a st = Some st' -> Inv2 st'.
Proof.
  intros [HL Hm Hf Hs Hw] Hstep. pose proof (live_inv HL) as HI. split.
  - by eapply Live_step.
  - by eapply mutex_inv_step.
  - by eapply fields_inv_step.
  - by eapply props_sound_step.
  - by eapply props_written_step.
Qed.

Lemma Inv2_run sched st st' : Inv2 st -> run schema sched st = Some st' -> Inv2 st'.
Proof.
  revert st. induction sched as [|a sched IH]; intros st HI Hrun; simpl in Hrun.
  - by simplify_eq.
  - destruct (step schema a st) as [st1|] eqn:Hstep; [|done].
    eapply IH; [|done]. by eapply Inv2_step.
Qed.

Lemma Inv2_reachable sched st : run schema sched (init schema) = Some st -> Inv2 st.
Proof. apply Inv2_run, Inv2_init. Qed.

(** ** Slices, keys and the value built sequentially *)

Lemma locals_prefix_step a st st' sl :
  step schema a st = Some st' ->
  slot_get sl (locals st) `prefix_of` slot_get sl (locals st').
Proof.
  intros Hstep. destruct a.
  - by apply step_Launch in Hstep as [_ ->].
  - apply step_Recv in Hstep as (c & t & _ & _ & _ & ->). simpl.
    rewrite slot_get_set. case_decide as E; [subst|done]. by apply prefix_app_r.
  - by apply step_Signal in Hstep as (c & cc & cp & _ & _ & _ & _ & ->).
  - by apply step_Lock in Hstep as (w & _ & _ & _ & ->).
  - by apply step_PropSignal in Hstep as (w & cc & cp & _ & _ & _ & ->).
  - apply step_Assign in Hstep as (n & _ & -> & _). done.
  - by apply step_Unlock in Hstep as (w & _ & _ & ->).
  - apply step_RacyAssign in Hstep as (n & _ & -> & _). done.
Qed.

Lemma locals_prefix_run sched st st' sl :
  run schema sched st = Some st' ->
  slot_get sl (locals st) `prefix_of` slot_get sl (locals st').
Proof.
  revert st. induction sched as [|a sched IH]; intros st Hrun; simpl in Hrun.
  - by simplify_eq.
  - destruct (step schema a st) as [st1|] eqn:Hstep; [|done].
    etransitivity; [by eapply locals_prefix_step|by apply IH].
Qed.

Lemma size_keys_le (l : list string) : size (list_to_set l : gset string) <= length l.
Proof.
  induction l as [|x l IH].
  - done.
  - change (list_to_set (x :: l) : gset string) with ({[x]} ∪ list_to_set l : gset string).
    rewrite size_union_alt, size_singleton. simpl.
    assert (size (list_to_set l ∖ {[x]} : gset string) <= size (list_to_set l : gset string))
      as Hle by (apply subseteq_size, subseteq_difference_l; done).
    lia.
Qed.

Lemma leaf_fields_of_sync v :
  scalars_of v = NewSchema_sync schema ->
  Schema.Discriminator v
  = (if IsEmpty (low.Schema.Discriminator schema) then None
     else Some (NewDiscriminator (NodeReference.Value (low.Schema.Discriminator schema))))
  /\ Schema.XML v
     = (if IsEmpty (low.Schema.XML schema) then None
        else Some (NewXML (NodeReference.Value (low.Schema.XML schema))))
  /\ Schema.ExternalDocs v
     = (if IsEmpty (low.Schema.ExternalDocs schema) then None
        else Some (NewExternalDoc (NodeReference.Value (low.Schema.ExternalDocs schema))))
  /\ Schema.Extensions v = ExtractExtensions (low.Schema.Extensions schema).
Proof.
  intros Hv. destruct v. unfold scalars_of, NewSchema_sync in Hv. simpl in Hv.
  injection Hv as ->; intros; subst. simpl. repeat split; reflexivity.
Qed.

Lemma materialized_slots sl :
  slot_out sl materialized = map buildSchemaChild (slot_in sl schema).
Proof. by destruct sl. Qed.

Lemma returned_dom sched v :
  NewSchema schema sched = Some v ->
  dom (Schema.Properties v) = list_to_set (map entry_key entries).
Proof.
  intros Hv. apply NewSchema_Some in Hv as (st & Hrun & Hpc & <-).
  pose proof (Inv2_reachable _ Hrun) as [HL _ _ _ Hwr]. pose proof (live_inv HL) as HI.
  destruct (inv_scalars HI) as [_ ->].
  apply set_eq. intros k. rewrite elem_of_dom, elem_of_list_to_set. split.
  - intros Hk. destruct (inv_props HI k Hk) as (n & w & Hw & _ & <-).
    rewrite <- (worker_keys HI) by (by rewrite Hpc).
    apply list_elem_of_fmap. exists w. split; [done|]. by eapply list_elem_of_lookup_2.
  - intros Hk. apply list_elem_of_fmap in Hk as (e & -> & Hin).
    apply list_elem_of_lookup in Hin as [n Hn].
    destruct (past_barrier_workers n HI (or_introl Hpc) Hn) as (w & Hw & Hwe & Hst).
    specialize (Hwr n w Hw (sent_written _ Hst)).
    unfold prop_key in Hwr. unfold entry_key. by rewrite <- Hwe.
Qed.

(** ** Steps of different goroutines *)

Lemma slot_set_comm {A} sl sl' (x y : A) v :
  sl <> sl' -> slot_set sl x (slot_set sl' y v) = slot_set sl' y (slot_set sl x v).
Proof. by destruct sl, sl'. Qed.

Lemma Recv_enabled sl n st c t :
  slot_get sl (coords st) = Some c -> j c < totalSchemas c -> bChan c !! n = Some t ->
  step schema (Recv sl n) st
  = Some {| pc := pc st;
            s := s st;
            locals := slot_set sl (slot_get sl (locals st) ++ [t]) (locals st);
            coords := slot_set sl
                        (Some {| totalSchemas := totalSchemas c; j := S (j c);
                                 bChan := delete n (bChan c);
                                 signalled := signalled c |})
                        (coords st);
            props := props st;
            plock := plock st;
            workers := workers st |}.
Proof.
  intros Hsl Hlt Ht. unfold step. rewrite Hsl.
  assert ((j c <? totalSchemas c) = true) as -> by (by apply Nat.ltb_lt).
  by rewrite Ht.
Qed.

(** ** After the return *)

(** Once the caller has returned it takes no signal any more: a coordinator
    that has not signalled by then never does. *)
Lemma unsignalled_after_return_step a st st' sl c :
  pc st = AtReturn -> slot_get sl (coords st) = Some c -> signalled c = false ->
  step schema a st = Some st' ->
  pc st' = AtReturn
  /\ exists c', slot_get sl (coords st') = Some c' /\ signalled c' = false.
Proof.
  intros Hpc Hsl Hsg Hstep. destruct a.
  - apply step_Launch in Hstep as [Hl _]. congruence.
  - apply step_Recv in Hstep as (c0 & t & Hsl0 & _ & _ & ->). simpl. split; [done|].
    rewrite slot_get_set. case_decide as E; [subst|eauto].
    assert (c0 = c) as -> by congruence. eauto.
  - apply step_Signal in Hstep as (c0 & cc & cp & _ & Hb & _). congruence.
  - apply step_Lock in Hstep as (w & _ & _ & _ & ->). simpl. eauto.
  - apply step_PropSignal in Hstep as (w & cc & cp & _ & Hb & _). congruence.
  - apply step_Assign in Hstep as (n & Hb & _). congruence.
  - apply step_Unlock in Hstep as (w & _ & _ & ->). simpl. eauto.
  - apply step_RacyAssign in Hstep as (n & Hb & _). congruence.
Qed.

Lemma unsignalled_after_return sched st st' sl c :
  pc st = AtReturn -> slot_get sl (coords st) = Some c -> signalled c = false ->
  run schema sched st = Some st' ->
  pc st' = AtReturn
  /\ exists c', slot_get sl (coords st') = Some c' /\ signalled c' = false.
Proof.
  revert st c. induction sched as [|a sched IH]; intros st c Hpc Hsl Hsg Hrun;
    simpl in Hrun.
  - simplify_eq. eauto.
  - destruct (step schema a st) as [st1|] eqn:Hstep; [|done].
    edestruct unsignalled_after_return_step as (Hpc1 & c1 & Hsl1 & Hsg1);
      [exact Hpc|exact Hsl|exact Hsg|exact Hstep|].
    by eapply IH.
Qed.

Lemma unsignalled_at_return st :
  Inv st -> totalChildren schema < launched_slots -> pc st = AtReturn ->
  exists sl c, slot_get sl (coords st) = Some c /\ signalled c = false.
Proof.
  intros HI Hlt Hpc. destruct (past_barrier_total HI (or_introl Hpc)) as [Hcnt _].
  assert (exists sl, sig (slot_get sl (coords st)) < started sl) as [sl Hsl].
  { unfold count_signalled in Hcnt. unfold launched_slots in Hlt. simpl in *.
    destruct (decide (sig (allOf (coords st)) < started SlotAllOf));
      [by exists SlotAllOf|].
    destruct (decide (sig (oneOf (coords st)) < started SlotOneOf));
      [by exists SlotOneOf|].
    destruct (decide (sig (anyOf (coords st)) < started SlotAnyOf));
      [by exists SlotAnyOf|].
    destruct (decide (sig (items (coords st)) < started SlotItems));
      [by exists SlotItems|].
    destruct (decide (sig (not_ (coords st)) < started SlotNot));
      [by exists SlotNot|].
    lia. }
  pose proof (inv_coord HI sl) as Hc. unfold coord_inv in Hc. unfold started in Hsl.
  exists sl. destruct (slot_get sl (coords st)) as [c|].
  - exists c. split; [done|]. simpl in Hsl.
    destruct (signalled c); [|done]. destruct (IsEmpty (slot_ref sl schema)); lia.
  - destruct Hc as [_ Hc]. rewrite Hc in Hsl by (by rewrite Hpc). simpl in Hsl. lia.
Qed.

(** Past the loop the send of every property worker has been taken. *)
Lemma past_barrier_sent st n w :
  Inv st -> (pc st = AtReturn \/ exists m, pc st = AtAssign m) ->
  workers st !! n = Some w -> sent w = 1.
Proof.
  intros HI Hpc Hw. destruct (past_barrier_total HI Hpc) as [_ Hcnt].
  assert (pc st <> AtLaunch) as Hl by (destruct Hpc as [->|[m ->]]; done).
  pose proof (inv_workers HI Hl) as Hws.
  eapply count_sent_all; [|done]. rewrite Hcnt. unfold totalProps. fold entries.
  by rewrite <- Hws, length_map.
Qed.

(** Once the caller has returned, no step writes the value it returned or
    the property map: what can still run are receives of coordinators that
    were not waited for and the deferred unlock of a worker. *)
Lemma returned_stable_step a st st' :
  Inv st -> pc st = AtReturn -> step schema a st = Some st' ->
  pc st' = AtReturn /\ s st' = s st /\ props st' = props st.
Proof.
  intros HI Hpc Hstep. destruct a.
  - apply step_Launch in Hstep as [Hl _]. congruence.
  - by apply step_Recv in Hstep as (c & t & _ & _ & _ & ->).
  - apply step_Signal in Hstep as (c & cc & cp & _ & Hb & _). congruence.
  - apply step_Lock in Hstep as (w & _ & Hw & Hst & _).
    assert (sent w = 1) as Hsent
      by (eapply past_barrier_sent; [exact HI|by left|exact Hw]).
    by destruct (sent_written _ Hsent).
  - apply step_PropSignal in Hstep as (w & cc & cp & _ & Hb & _). congruence.
  - apply step_Assign in Hstep as (n & Hb & _). congruence.
  - by apply step_Unlock in Hstep as (w & _ & _ & ->).
  - apply step_RacyAssign in Hstep as (n & Hb & _). congruence.
Qed.

Lemma returned_stable sched st st' :
  Inv st -> pc st = AtReturn -> run schema sched st = Some st' ->
  pc st' = AtReturn /\ s st' = s st /\ props st' = props st.
Proof.
  revert st. induction sched as [|a sched IH]; intros st HI Hpc Hrun; simpl in Hrun.
  - by simplify_eq.
  - destruct (step schema a st) as [st1|] eqn:Hstep; [|done].
    edestruct returned_stable_step as (Hpc1 & Hs1 & Hp1); [exact HI|exact Hpc|exact Hstep|].
    edestruct (IH st1) as (Hpc' & Hs' & Hp'); [by eapply Inv_step|exact Hpc1|exact Hrun|].
    split; [done|]. split; congruence.
Qed.

(** ** Fields of synchronised slots *)

(** The slice of a synchronised slot is complete: nil when no coordinator
    runs for the slot, and otherwise the proxies of all the slot's elements,
    in the order of arrival. *)
Lemma synchronised_slice st sl :
  Inv st -> synchronised sl st ->
  (pc st <> AtLaunch -> IsEmpty (slot_ref sl schema) = true -> slot_get sl (locals st) = [])
  /\ (forall c, slot_get sl (coords st) = Some c ->
        IsEmpty (slot_ref sl schema) = false
        /\ Permutation (slot_get sl (locals st)) (map buildSchemaChild (slot_in sl schema))).
Proof.
  intros HI Hsy. pose proof (inv_coord HI sl) as Hc. unfold coord_inv in Hc.
  unfold synchronised in Hsy.
  destruct (slot_get sl (coords st)) as [c|] eqn:Hsl.
  - destruct Hc as (He & Htot & Hj & Hp & Hs). split; [congruence|].
    intros c' ?; simplify_eq. split; [done|]. simpl in Hsy.
    assert (totalSchemas c' <= j c') as Hge.
    { destruct (signalled c'); simpl in Hsy; [specialize (Hs eq_refl); lia|].
      apply Nat.ltb_ge in Hsy. lia. }
    edestruct collected_slot as (_ & _ & ?); [exact HI|exact Hsl|exact Hge|done].
  - destruct Hc as [Hl _]. split; [done|]. intros c ?. done.
Qed.

(** At the return, the field of a synchronised slot is that slice. *)
Lemma synchronised_field st sl :
  Inv st -> fields_inv st -> pc st = AtReturn -> synchronised sl st ->
  slot_out sl (s st) = slot_get sl (locals st)
  /\ (IsEmpty (slot_ref sl schema) = true /\ slot_out sl (s st) = []
      \/ IsEmpty (slot_ref sl schema) = false
         /\ Permutation (slot_out sl (s st)) (map buildSchemaChild (slot_in sl schema))).
Proof.
  intros HI [_ Hf] Hpc Hsy. specialize (Hf sl). rewrite Hpc in Hf. simpl in Hf.
  specialize (Hf Hsy). split; [done|]. rewrite Hf.
  edestruct synchronised_slice as [Hnil Hsome]; [exact HI|exact Hsy|].
  pose proof (inv_coord HI sl) as Hc. unfold coord_inv in Hc.
  destruct (slot_get sl (coords st)) as [c|] eqn:Hsl.
  - right. by apply (Hsome c).
  - left. destruct Hc as [Hl He]. split; [|done]. apply He. by rewrite Hpc.
Qed.

(** A list with at most one element has no other arrangement. *)
Lemma Permutation_short {A} (l1 l2 l : list A) :
  length l <= 1 -> Permutation l1 l -> Permutation l2 l -> l1 = l2.
Proof.
  intros Hlen H1 H2. destruct l as [|x [|y l]]; simpl in Hlen; [| |lia].
  - apply Permutation_nil_r in H1, H2. by subst.
  - apply Permutation_singleton_r in H1, H2. by subst.
Qed.

(** With distinct key strings two returned values hold the same map. *)
Lemma returned_props_eq sched1 sched2 v1 v2 :
  NoDup (map entry_key entries) ->
  NewSchema schema sched1 = Some v1 -> NewSchema schema sched2 = Some v2 ->
  Schema.Properties v1 = Schema.Properties v2.
Proof.
  intros Hnd Hv1 Hv2.
  edestruct returned_props as [Hall1 Hdom1]; [exact Hnd|exact Hv1|].
  edestruct returned_props as [Hall2 Hdom2]; [exact Hnd|exact Hv2|].
  apply map_eq. intros k.
  destruct (Schema.Properties v1 !! k) as [p|] eqn:Hk.
  - assert (k ∈ dom (Schema.Properties v1)) as Hin by (apply elem_of_dom; eauto).
    rewrite Hdom1, elem_of_list_to_set in Hin.
    apply list_elem_of_fmap in Hin as ([k' x] & -> & Hin).
    unfold entry_key in Hk; simpl in Hk.
    rewrite (Hall1 _ _ Hin) in Hk. unfold entry_key; simpl.
    rewrite (Hall2 _ _ Hin). done.
  - apply not_elem_of_dom in Hk. rewrite Hdom1, <- Hdom2 in Hk.
    apply not_elem_of_dom in Hk. done.
Qed.

End Invariants.

Unset Implicit Arguments.

Section Claims.
Context `{Collaborators}.

(** C7. The scalar fields of the value under construction equal the
    low-level [Value]s in every state the system reaches: already in the
    initial state, where the synchronous part is over and no goroutine has
    been started, and so in the value that is returned. *)
Theorem scalars_copied_before_launch (schema : low.Schema.t) (sched : list Action)
    (st : State) :
  run schema sched (init schema) = Some st ->
  (pc (init schema) = AtLaunch /\ workers (init schema) = []
   /\ coords (init schema) = mkSlots None None None None None)
  /\ scalar_fields_copied schema (s (init schema))
  /\ scalar_fields_copied schema (s st)
  /\ (forall v, NewSchema schema sched = Some v -> scalar_fields_copied schema v).
Proof.
  intros Hrun. split; [done|]. split.
  { apply scalar_fields_of_sync. reflexivity. }
  pose proof (Inv_reachable _ _ Hrun) as HI.
  destruct (inv_scalars HI) as [Hs _].
  split; [by apply scalar_fields_of_sync|].
  intros v Hv. apply NewSchema_Some in Hv as (st' & Hrun' & _ & <-).
  assert (st' = st) as -> by congruence. by apply scalar_fields_of_sync.
Qed.

(** C8. [Required] and [Enum] of the returned value are the [Value]s of the
    input references, index by index, with the input's length. *)
Theorem required_enum_flattened (schema : low.Schema.t) (sched : list Action)
    (v : Schema.t) :
  NewSchema schema sched = Some v ->
  (length (Schema.Required v) = length (NodeReference.Value (low.Schema.Required schema))
   /\ forall i : nat, Schema.Required v !! i
        = (@ValueReference.Value _ _)
            <$> (NodeReference.Value (low.Schema.Required schema) !! i))
  /\ (length (Schema.Enum v) = length (NodeReference.Value (low.Schema.Enum schema))
      /\ forall i : nat, Schema.Enum v !! i
           = (@ValueReference.Value _ _)
               <$> (NodeReference.Value (low.Schema.Enum schema) !! i)).
Proof.
  intros Hv. apply NewSchema_Some in Hv as (st & Hrun & _ & <-).
  pose proof (Inv_reachable _ _ Hrun) as HI.
  destruct (inv_scalars HI) as [Hs _].
  apply scalar_fields_of_sync in Hs as (_ & _ & -> & -> & _).
  rewrite !flatten_map. split; (split; [by rewrite length_map|]).
  - intros i. apply list_lookup_fmap.
  - intros i. apply list_lookup_fmap.
Qed.

(** C10. [UniqueItems] of the returned value is 0 whatever the low-level
    node carries in its own [UniqueItems]; every other scalar field holds
    the low-level value. *)
Theorem UniqueItems_never_assigned (schema : low.Schema.t) (sched : list Action)
    (v : Schema.t) :
  NewSchema schema sched = Some v ->
  Schema.UniqueItems v = 0%Z /\ scalar_fields_copied schema v.
Proof.
  intros Hv. apply NewSchema_Some in Hv as (st & Hrun & _ & <-).
  pose proof (Inv_reachable _ _ Hrun) as HI.
  destruct (inv_scalars HI) as [Hs _].
  apply scalar_fields_of_sync in Hs. tauto.
Qed.

(** C9. With no property entry and no composition element the caller goes
    from the [go] statements straight to the trailing assignments and
    returns: it is never in the [allDone] loop, so it never receives. *)
Theorem empty_input_skips_barrier (schema : low.Schema.t) :
  totalProps schema = 0 -> totalChildren schema = 0 ->
  NewSchema schema straight = Some (NewSchema_sync schema)
  /\ forall sched st, run schema sched (init schema) = Some st ->
       forall completeChildren completedProps,
         pc st <> AtBarrier completeChildren completedProps.
Proof.
  intros HK HT. assert (totalProps schema + totalChildren schema = 0) as Hz by lia.
  split; [by apply straight_returns|].
  intros sched st Hrun. eapply not_waiting_run; [done| |done]. by intros cc cp.
Qed.

(** C6. With pairwise distinct key strings, the returned property map has
    one entry per input entry, and under each key the proxy built from that
    key and the value reference the input gives it. *)
Theorem properties_key_integrity (schema : low.Schema.t) (sched : list Action)
    (v : Schema.t) :
  NoDup (map entry_key (entries schema)) ->
  NewSchema schema sched = Some v ->
  size (Schema.Properties v) = length (entries schema)
  /\ forall k x, (k, x) ∈ entries schema ->
       Schema.Properties v !! KeyReference.Value k = Some (buildProps_proxy k x)
       /\ NodeReference.Value (SchemaProxy.schema (buildProps_proxy k x))
          = ValueReference.Value x
       /\ NodeReference.ValueNode (SchemaProxy.schema (buildProps_proxy k x))
          = ValueReference.ValueNode x
       /\ NodeReference.KeyNode (SchemaProxy.schema (buildProps_proxy k x))
          = KeyReference.KeyNode k.
Proof.
  intros Hnd Hv. destruct (returned_props _ _ Hnd Hv) as [Hall Hdom]. split.
  - rewrite <- size_dom, Hdom, size_list_to_set by done. by rewrite length_map.
  - intros k x Hin. split; [by apply Hall|done].
Qed.

(** C5, amended. Two calls on the same node that both return: the two
    values agree on every field but the five composition fields and the
    property map; the two maps have the same keys, and are equal when the
    key strings of the node are pairwise distinct; a composition field whose
    slot is synchronised in both calls holds the same proxies in both, in
    an order that may differ, and the same sequence when the slot has at
    most one element; with well-formed slots and distinct key strings the
    two values are equal. *)
Theorem NewSchema_deterministic_up_to_order (schema : low.Schema.t)
    (sched1 sched2 : list Action) (st1 st2 : State) :
  run schema sched1 (init schema) = Some st1 -> pc st1 = AtReturn ->
  run schema sched2 (init schema) = Some st2 -> pc st2 = AtReturn ->
  (NewSchema schema sched1 = Some (s st1) /\ NewSchema schema sched2 = Some (s st2))
  /\ scalars_of (s st1) = scalars_of (s st2)
  /\ dom (Schema.Properties (s st1)) = dom (Schema.Properties (s st2))
  /\ (NoDup (map entry_key (entries schema)) ->
      Schema.Properties (s st1) = Schema.Properties (s st2))
  /\ (forall sl, synchronised sl st1 -> synchronised sl st2 ->
        Permutation (slot_out sl (s st1)) (slot_out sl (s st2))
        /\ (length (slot_in sl schema) <= 1 -> slot_out sl (s st1) = slot_out sl (s st2)))
  /\ (slots_wf schema -> NoDup (map entry_key (entries schema)) -> s st1 = s st2).
Proof.
  intros Hrun1 Hpc1 Hrun2 Hpc2.
  pose proof (returns_of_run _ _ Hrun1 Hpc1) as Hv1.
  pose proof (returns_of_run _ _ Hrun2 Hpc2) as Hv2.
  pose proof (Inv2_reachable _ _ Hrun1) as [HL1 _ Hf1 _ _].
  pose proof (Inv2_reachable _ _ Hrun2) as [HL2 _ Hf2 _ _].
  pose proof (live_inv HL1) as HI1. pose proof (live_inv HL2) as HI2.
  assert (scalars_of (s st1) = scalars_of (s st2)) as Hsc.
  { destruct (inv_scalars HI1) as [-> _]. by destruct (inv_scalars HI2) as [-> _]. }
  split; [done|]. split; [done|]. split; [|split; [|split]].
  - by rewrite (returned_dom _ _ Hv1), (returned_dom _ _ Hv2).
  - intros Hnd. by eapply returned_props_eq.
  - intros sl Hsy1 Hsy2.
    destruct (synchronised_field HI1 Hf1 Hpc1 Hsy1) as [_ [[He1 Ho1]|[He1 Ho1]]];
      destruct (synchronised_field HI2 Hf2 Hpc2 Hsy2) as [_ [[He2 Ho2]|[He2 Ho2]]];
      try congruence.
    + rewrite Ho1, Ho2. done.
    + split; [by rewrite Ho1, Ho2|].
      intros Hlen. eapply Permutation_short; [|exact Ho1|exact Ho2].
      by rewrite length_map.
  - intros Hwf Hnd. apply Schema_ext; [done| |by eapply returned_props_eq].
    intros sl. by rewrite (returned_slots _ sl Hwf Hv1), (returned_slots _ sl Hwf Hv2).
Qed.

(** C3, amended. Each receive appends the proxy of the child that reports;
    once the loop is over the slice is a permutation of the proxies of the
    input; it is the input order, index by index, when every receive took
    the earliest-started child still blocked. *)
Theorem slot_output_in_arrival_order (schema : low.Schema.t) (sched : list Action)
    (st : State) (sl : Slot) (c : Coordinator) :
  run schema sched (init schema) = Some st ->
  slot_get sl (coords st) = Some c ->
  (forall n st', step schema (Recv sl n) st = Some st' ->
     exists t, bChan c !! n = Some t
               /\ slot_get sl (locals st') = slot_get sl (locals st) ++ [t])
  /\ (totalSchemas c <= j c ->
      Permutation (slot_get sl (locals st)) (map buildSchemaChild (slot_in sl schema)))
  /\ (Forall (receives_first sl) sched -> totalSchemas c <= j c ->
      forall i : nat,
        slot_get sl (locals st) !! i = buildSchemaChild <$> (slot_in sl schema !! i)).
Proof.
  intros Hrun Hc. pose proof (Inv_reachable _ _ Hrun) as HI. split; [|split].
  - intros n st' Hstep.
    apply step_Recv in Hstep as (c' & t & Hsl & Hlt & Ht & ->).
    assert (c' = c) as -> by congruence. exists t. split; [done|].
    simpl. by rewrite slot_get_set_eq.
  - intros Hge. by destruct (collected_slot _ HI Hc Hge) as (_ & _ & ?).
  - intros Hf Hge i. destruct (collected_slot _ HI Hc Hge) as (Hb & _ & _).
    assert (ordered schema sl st) as Ho.
    { eapply ordered_run; [apply Inv_init| |done|done]. unfold ordered. by destruct sl. }
    unfold ordered in Ho. rewrite Hc, Hb, app_nil_r in Ho. rewrite Ho.
    apply list_lookup_fmap.
Qed.

(** C2, on the code: when the slots hold more elements than there are
    coordinators, no schedule takes the caller to its return.  The caller
    stays before the [go] statements or in the loop, short of signals, and
    since every step uses up work that is left, all activity stops: the call
    blocks for ever. *)
Theorem NewSchema_blocks_forever (schema : low.Schema.t) (sched : list Action) :
  launched_slots schema < totalChildren schema ->
  NewSchema schema sched = None
  /\ forall st, run schema sched (init schema) = Some st ->
       length sched <= remaining schema (init schema)
       /\ (pc st = AtLaunch
           \/ exists completeChildren completedProps,
                pc st = AtBarrier completeChildren completedProps
                /\ completeChildren < totalChildren schema).
Proof.
  intros Hlt. split; [by apply never_returns|].
  intros st Hrun. split.
  - pose proof (run_length _ _ _ Hrun). lia.
  - by eapply never_past_barrier.
Qed.

(** Whatever the schedule, it is finite: each step uses up some of the work
    that is left. *)
Theorem schedules_are_finite (schema : low.Schema.t) (sched : list Action) (st : State) :
  run schema sched (init schema) = Some st ->
  length sched <= remaining schema (init schema).
Proof. intros Hrun. pose proof (run_length _ _ _ Hrun). lia. Qed.

(** With well-formed slots of at most one element each, a call never gets
    stuck: whatever has been scheduled can be continued up to the return. *)
Theorem no_deadlock (schema : low.Schema.t) (sched : list Action) (st : State) :
  slots_wf schema -> at_most_one_each schema ->
  run schema sched (init schema) = Some st ->
  exists sched' v, NewSchema schema (sched ++ sched') = Some v.
Proof.
  intros Hwf Hone Hrun.
  destruct (can_return Hwf Hone (Live_reachable _ _ Hrun)) as (sched' & st' & Hrun' & Hpc).
  exists sched', (s st'). apply returns_of_run; [|done].
  by rewrite (run_app _ _ sched' _ Hrun).
Qed.

(** X9. With well-formed slots, [NewSchema] can return exactly when no slot
    holds two elements or more. *)
Theorem NewSchema_returns_iff (schema : low.Schema.t) :
  slots_wf schema ->
  (exists sched v, NewSchema schema sched = Some v) <-> at_most_one_each schema.
Proof.
  intros Hwf. split.
  - intros (sched & v & Hv) sl.
    destruct (decide (length (slot_in sl schema) <= 1)) as [|Hlen]; [done|].
    assert (launched_slots schema < totalChildren schema) as Hlt
      by (apply (crowded_slot sl Hwf); lia).
    by rewrite (never_returns _ sched Hlt) in Hv.
  - intros Hone.
    destruct (no_deadlock schema [] (init schema) Hwf Hone eq_refl) as (sched & v & Hv).
    by exists sched, v.
Qed.

End Claims.

(** * The claims on concrete nodes *)

Section Concrete.

#[local] Existing Instance nil_nodes.

Lemma singles_wf : slots_wf singles.
Proof. intros sl. destruct sl; vm_compute; split; intros; done. Qed.

Lemma singles_keys : NoDup (map entry_key (entries singles)).
Proof. apply (bool_decide_unpack _). by vm_compute. Qed.

Lemma scalars_copied_before_launch_witness :
  match run singles singles_sched (init singles) with
  | Some st => scalar_fields_copied singles (s st)
  | None => False
  end.
Proof.
  destruct (run singles singles_sched (init singles)) as [st|] eqn:E.
  - exact (proj1 (proj2 (proj2 (scalars_copied_before_launch singles singles_sched st E)))).
  - vm_compute in E. discriminate.
Defined.

Lemma required_enum_flattened_witness :
  match NewSchema singles singles_sched with
  | Some v => Schema.Required v !! 1 = Some "b"%string /\ Schema.Enum v !! 0 = Some "e"%string
  | None => False
  end.
Proof.
  destruct (NewSchema singles singles_sched) as [v|] eqn:E.
  - destruct (required_enum_flattened singles singles_sched v E)
      as [[_ Hreq] [_ Hen]].
    split.
    + rewrite Hreq. reflexivity.
    + rewrite Hen. reflexivity.
  - vm_compute in E. discriminate.
Defined.

Lemma UniqueItems_never_assigned_witness :
  NodeReference.Value (low.Schema.UniqueItems singles) = 10%Z
  /\ match NewSchema singles singles_sched with
     | Some v => Schema.UniqueItems v = 0%Z
     | None => False
     end.
Proof.
  split; [reflexivity|].
  destruct (NewSchema singles singles_sched) as [v|] eqn:E.
  - exact (proj1 (UniqueItems_never_assigned singles singles_sched v E)).
  - vm_compute in E. discriminate.
Defined.

Lemma empty_input_skips_barrier_witness :
  NewSchema bare straight = Some (NewSchema_sync bare).
Proof.
  apply (empty_input_skips_barrier bare); reflexivity.
Defined.

Lemma properties_key_integrity_witness :
  match NewSchema singles singles_sched with
  | Some v => size (Schema.Properties v) = 2
  | None => False
  end.
Proof.
  destruct (NewSchema singles singles_sched) as [v|] eqn:E.
  - exact (proj1 (properties_key_integrity singles singles_sched v singles_keys E)).
  - vm_compute in E. discriminate.
Defined.

Lemma NewSchema_deterministic_up_to_order_witness :
  match run pair_hollow pair_in_order (init pair_hollow),
        run pair_hollow pair_reversed (init pair_hollow) with
  | Some st1, Some st2 =>
      Permutation (slot_out SlotAllOf (s st1)) (slot_out SlotAllOf (s st2))
      /\ scalars_of (s st1) = scalars_of (s st2)
  | _, _ => False
  end.
Proof.
  destruct (run pair_hollow pair_in_order (init pair_hollow)) as [st1|] eqn:E1;
    [|vm_compute in E1; discriminate].
  destruct (run pair_hollow pair_reversed (init pair_hollow)) as [st2|] eqn:E2;
    [|vm_compute in E2; discriminate].
  assert (pc st1 = AtReturn) as Hpc1
    by (vm_compute in E1; injection E1 as <-; reflexivity).
  assert (pc st2 = AtReturn) as Hpc2
    by (vm_compute in E2; injection E2 as <-; reflexivity).
  assert (synchronised SlotAllOf st1) as Hsy1
    by (vm_compute in E1; injection E1 as <-; reflexivity).
  assert (synchronised SlotAllOf st2) as Hsy2
    by (vm_compute in E2; injection E2 as <-; reflexivity).
  destruct (NewSchema_deterministic_up_to_order pair_hollow pair_in_order pair_reversed
              st1 st2 E1 Hpc1 E2 Hpc2) as (_ & Hsc & _ & _ & Hsl & _).
  split; [exact (proj1 (Hsl SlotAllOf Hsy1 Hsy2))|exact Hsc].
Defined.

(** C5, counterexample: [AllOf = [A, B]] beside an [AnyOf] that is present
    and holds no element.  Both coordinators signal before the caller
    leaves the loop; the returned [AllOf] is [A, B] when the children report
    in that order and [B, A] when they report in the other. *)
Lemma not_deterministic_pair_hollow : ~ deterministic pair_hollow.
Proof.
  intros Hd.
  destruct (NewSchema pair_hollow pair_in_order) as [v1|] eqn:E1;
    [|vm_compute in E1; discriminate].
  destruct (NewSchema pair_hollow pair_reversed) as [v2|] eqn:E2;
    [|vm_compute in E2; discriminate].
  pose proof (f_equal (slot_out SlotAllOf) (Hd _ _ _ _ E1 E2)) as Heq.
  vm_compute in E1, E2. injection E1 as <-. injection E2 as <-.
  vm_compute in Heq. discriminate.
Qed.

Lemma NewSchema_blocks_forever_witness :
  launched_slots crowded = 5 /\ totalChildren crowded = 25
  /\ totalProps crowded = 1000
  /\ NewSchema crowded crowded_sched = None.
Proof.
  split; [vm_compute; reflexivity|]. split; [vm_compute; reflexivity|].
  split; [vm_compute; reflexivity|].
  apply (NewSchema_blocks_forever crowded crowded_sched). vm_compute. lia.
Defined.

Lemma slot_output_in_arrival_order_witness :
  match run two_allOf [Launch; Recv SlotAllOf 0; Recv SlotAllOf 0] (init two_allOf) with
  | Some st =>
      slot_get SlotAllOf (locals st) !! 1
      = buildSchemaChild <$> (slot_in SlotAllOf two_allOf !! 1)
  | None => False
  end.
Proof.
  destruct (run two_allOf [Launch; Recv SlotAllOf 0; Recv SlotAllOf 0] (init two_allOf))
    as [st|] eqn:E.
  - destruct (slot_get SlotAllOf (coords st)) as [c|] eqn:Hc.
    + refine (proj2 (proj2 (slot_output_in_arrival_order two_allOf _ st SlotAllOf c E Hc))
                _ _ 1).
      * repeat constructor; intros n Hn; by simplify_eq.
      * vm_compute in E. simplify_eq. vm_compute in Hc. simplify_eq. simpl. lia.
    + vm_compute in E. by simplify_eq.
  - vm_compute in E. discriminate.
Defined.

(** C3, counterexample: the child wrapping [B] reports before the one
    wrapping [A]; when the loop is over the slice starts with [B]. *)
Lemma order_not_preserved_two_allOf : ~ order_preserved two_allOf.
Proof.
  intros Hop.
  destruct (run two_allOf [Launch; Recv SlotAllOf 1; Recv SlotAllOf 0] (init two_allOf))
    as [st|] eqn:E; [|vm_compute in E; discriminate].
  destruct (slot_get SlotAllOf (coords st)) as [c|] eqn:Hc;
    [|vm_compute in E; by simplify_eq].
  assert (totalSchemas c <= j c) as Hge.
  { vm_compute in E. simplify_eq. vm_compute in Hc. simplify_eq. simpl. lia. }
  specialize (Hop _ st SlotAllOf c E Hc Hge 0).
  vm_compute in E. injection E as <-. vm_compute in Hop. discriminate.
Qed.

(** C4, on the code, for [AllOf = [A]] beside an [AnyOf] that is present
    and holds no element: the caller counts one element and two
    coordinators are started.  The coordinator of [AnyOf] has nothing to
    receive and signals at once; on that signal the caller leaves the loop
    and returns [AllOf] with no element, the coordinator of [AllOf] not
    having received its child.  When the coordinator of [AllOf] signals
    first, the returned [AllOf] has its one element. *)
Theorem cardinality_lost_hollow :
  slot_in SlotAllOf hollow = [child "A"%string]
  /\ totalChildren hollow = 1 /\ launched_slots hollow = 2
  /\ (exists v, NewSchema hollow hollow_early = Some v /\ slot_out SlotAllOf v = [])
  /\ (exists v, NewSchema hollow hollow_late = Some v
                /\ slot_out SlotAllOf v = [buildSchemaChild (child "A"%string)])
  /\ ~ cardinality_kept hollow.
Proof.
  split; [reflexivity|]. split; [reflexivity|]. split; [reflexivity|].
  split; [eexists; split; [vm_compute; reflexivity|reflexivity]|].
  split; [eexists; split; [vm_compute; reflexivity|reflexivity]|].
  intros Hk.
  destruct (NewSchema hollow hollow_early) as [v|] eqn:E; [|vm_compute in E; discriminate].
  specialize (Hk hollow_early v SlotAllOf E).
  vm_compute in E. injection E as <-. vm_compute in Hk. discriminate.
Qed.

(** C1, on the code, for [AllOf = [A, B]]: the loop waits for two signals
    from coordinators, one coordinator is started, and no schedule takes
    the caller to its return; after that coordinator's only signal the
    caller is in the loop with one signal counted and nothing can move. *)
Theorem barrier_counts_elements_two_allOf :
  totalProps two_allOf + totalChildren two_allOf = 2
  /\ launched_slots two_allOf + totalProps two_allOf = 1
  /\ (forall sched, NewSchema two_allOf sched = None)
  /\ exists st,
       run two_allOf [Launch; Recv SlotAllOf 0; Recv SlotAllOf 0; Signal SlotAllOf]
           (init two_allOf) = Some st
       /\ pc st = AtBarrier 1 0
       /\ forall a, step two_allOf a st = None.
Proof.
  split; [reflexivity|]. split; [reflexivity|]. split.
  - intros sched. apply never_returns. vm_compute. lia.
  - eexists. split; [vm_compute; reflexivity|]. split; [reflexivity|].
    intros [|sl n|sl|n|n| |n|v]; try reflexivity.
    + by destruct sl.
    + by destruct sl.
Qed.

End Concrete.

(** * Further properties of the code *)

Section Further.
Context `{Collaborators}.

(** X1. [GoLow] of a returned value is the node the value was built from. *)
Theorem GoLow_returns_input (schema : low.Schema.t) (sched : list Action) (v : Schema.t) :
  NewSchema schema sched = Some v -> GoLow v = schema.
Proof.
  intros Hv. apply NewSchema_Some in Hv as (st & Hrun & _ & <-).
  destruct (inv_scalars (Inv_reachable _ _ Hrun)) as [Hs _].
  by apply scalar_fields_of_sync in Hs as (_ & _ & _ & _ & ?).
Qed.

(** X2. The discriminator, the XML object and the external documentation
    of a returned value are built exactly when the low-level field is not
    empty, from the field's [Value], and are nil otherwise; the extensions
    are what [ExtractExtensions] gives. *)
Theorem leaf_objects_guarded (schema : low.Schema.t) (sched : list Action) (v : Schema.t) :
  NewSchema schema sched = Some v ->
  Schema.Discriminator v
  = (if IsEmpty (low.Schema.Discriminator schema) then None
     else Some (NewDiscriminator (NodeReference.Value (low.Schema.Discriminator schema))))
  /\ Schema.XML v
     = (if IsEmpty (low.Schema.XML schema) then None
        else Some (NewXML (NodeReference.Value (low.Schema.XML schema))))
  /\ Schema.ExternalDocs v
     = (if IsEmpty (low.Schema.ExternalDocs schema) then None
        else Some (NewExternalDoc (NodeReference.Value (low.Schema.ExternalDocs schema))))
  /\ Schema.Extensions v = ExtractExtensions (low.Schema.Extensions schema).
Proof.
  intros Hv. apply NewSchema_Some in Hv as (st & Hrun & _ & <-).
  destruct (inv_scalars (Inv_reachable _ _ Hrun)) as [Hs _].
  by apply leaf_fields_of_sync.
Qed.

(** X3. Mutual exclusion of the property workers: at any time at most one
    of them is between its [Lock] and its deferred [Unlock], and [plock] is
    held exactly when there is one. *)
Theorem plock_mutual_exclusion (schema : low.Schema.t) (sched : list Action) (st : State) :
  run schema sched (init schema) = Some st ->
  (forall n m w w',
     workers st !! n = Some w -> workers st !! m = Some w' ->
     holds_lock w -> holds_lock w' -> n = m)
  /\ (plock st = true <-> exists n w, workers st !! n = Some w /\ holds_lock w).
Proof.
  intros Hrun. pose proof (Inv2_reachable _ _ Hrun) as [HL Hm _ _ _].
  unfold mutex_inv in Hm. split.
  - intros n m w w' Hn Hm' Hw Hw'.
    eapply count_holding_le_1; [|exact Hn|exact Hm'|done|done].
    destruct (plock st); lia.
  - split.
    + apply (live_lock HL).
    + intros (n & w & Hw & Hst). pose proof (count_holding_pos _ _ Hw Hst).
      destruct (plock st); [done|lia].
Qed.

(** X4. For any node, well-formed or not, and any slot that is synchronised
    when the caller returns: the field of a slot that is empty, or holds no
    element, is nil; the field of a slot whose coordinator the caller took
    the signal of is the coordinator's slice, the proxies of all the slot's
    elements, each exactly once, with a nil key node and the element's
    value and value node.  Nothing is said of a slot the caller did not
    wait for. *)
Theorem fields_of_synchronised_slots (schema : low.Schema.t) (sched : list Action)
    (st : State) (sl : Slot) :
  run schema sched (init schema) = Some st -> pc st = AtReturn ->
  NewSchema schema sched = Some (s st)
  /\ (IsEmpty (slot_ref sl schema) = true -> slot_out sl (s st) = [])
  /\ (slot_in sl schema = [] -> slot_out sl (s st) = [])
  /\ (forall c, slot_get sl (coords st) = Some c -> signalled c = true ->
        slot_out sl (s st) = slot_get sl (locals st)
        /\ Permutation (slot_out sl (s st)) (map buildSchemaChild (slot_in sl schema))
        /\ forall p, p ∈ slot_out sl (s st) ->
             NodeReference.KeyNode (SchemaProxy.schema p) = None
             /\ exists x, x ∈ slot_in sl schema
                  /\ NodeReference.Value (SchemaProxy.schema p) = ValueReference.Value x
                  /\ NodeReference.ValueNode (SchemaProxy.schema p)
                     = ValueReference.ValueNode x).
Proof.
  intros Hrun Hpc. split; [by apply returns_of_run|].
  pose proof (Inv2_reachable _ _ Hrun) as [HL _ Hf _ _]. pose proof (live_inv HL) as HI.
  pose proof (inv_coord HI sl) as Hc. unfold coord_inv in Hc.
  split; [|split].
  - (* no coordinator was started *)
    intros He.
    assert (synchronised sl st) as Hsy.
    { unfold synchronised. destruct (slot_get sl (coords st)) as [c|]; [|done].
      destruct Hc as (Hne & _). congruence. }
    destruct (synchronised_field HI Hf Hpc Hsy) as [_ [[_ ?]|[? _]]]; [done|congruence].
  - (* a coordinator, if any, has nothing to receive *)
    intros Hin.
    assert (synchronised sl st) as Hsy.
    { unfold synchronised. destruct (slot_get sl (coords st)) as [c|]; [|done].
      destruct Hc as (_ & Htot & _). rewrite Hin in Htot. simpl in *. rewrite Htot.
      by destruct (signalled c). }
    destruct (synchronised_field HI Hf Hpc Hsy) as [_ [[_ ?]|[_ Hp]]]; [done|].
    rewrite Hin in Hp. by apply Permutation_nil_r in Hp.
  - (* the caller took the coordinator's signal *)
    intros c Hsl Hsg.
    assert (synchronised sl st) as Hsy.
    { unfold synchronised. rewrite Hsl. simpl. by rewrite Hsg. }
    destruct (synchronised_field HI Hf Hpc Hsy) as [Heq [[He _]|[_ Hp]]].
    { rewrite Hsl in Hc. destruct Hc as (Hne & _). congruence. }
    split; [done|]. split; [done|].
    intros p Hin. rewrite Hp in Hin.
    apply list_elem_of_fmap in Hin as (x & -> & Hx). split; [done|]. by exists x.
Qed.

(** X5. Whatever the key strings, distinct or not: the keys of the returned
    property map are exactly the key strings of the input entries, what is
    stored under a key is the proxy of an input entry with that key, and
    the map has at most as many entries as the input. *)
Theorem properties_keys_and_values (schema : low.Schema.t) (sched : list Action)
    (v : Schema.t) :
  NewSchema schema sched = Some v ->
  dom (Schema.Properties v) = list_to_set (map entry_key (entries schema))
  /\ (forall k p, Schema.Properties v !! k = Some p ->
        exists e, e ∈ entries schema /\ entry_key e = k
                  /\ p = buildProps_proxy (fst e) (snd e))
  /\ size (Schema.Properties v) <= length (entries schema).
Proof.
  intros Hv. pose proof (returned_dom _ _ Hv) as Hdom. split; [done|]. split.
  - apply NewSchema_Some in Hv as (st & Hrun & _ & <-).
    pose proof (Inv2_reachable _ _ Hrun) as [HL _ _ Hs _].
    destruct (inv_scalars (live_inv HL)) as [_ ->]. apply Hs.
  - rewrite <- size_dom, Hdom.
    etransitivity; [apply size_keys_le|]. by rewrite length_map.
Qed.

(** X6. With well-formed slots and distinct key strings, a returned value
    is the value built without any concurrency: the scalar part, every
    composition field in input order, one map entry per property. *)
Theorem returns_materialized (schema : low.Schema.t) (sched : list Action) (v : Schema.t) :
  slots_wf schema ->
  NoDup (map entry_key (entries schema)) ->
  NewSchema schema sched = Some v ->
  v = materialized schema.
Proof.
  intros Hwf Hnd Hv. apply Schema_ext.
  - apply NewSchema_Some in Hv as (st & Hrun & _ & <-).
    by destruct (inv_scalars (Inv_reachable _ _ Hrun)) as [-> _].
  - intros sl. by rewrite (returned_slots _ sl Hwf Hv), materialized_slots.
  - destruct (returned_props _ _ Hnd Hv) as [Hall Hdom].
    change (Schema.Properties (materialized schema))
      with (list_to_map (map (fun e => (entry_key e, buildProps_proxy (fst e) (snd e)))
                             (entries schema)) : gmap string SchemaProxy.t).
    assert ((map (fun e => (entry_key e, buildProps_proxy (fst e) (snd e)))
                 (entries schema)).*1 = map entry_key (entries schema)) as Hfst.
    { rewrite <- list_fmap_compose. done. }
    apply map_eq. intros k.
    destruct (decide (k ∈ map entry_key (entries schema))) as [Hk|Hk].
    + apply list_elem_of_fmap in Hk as ([k' x] & -> & Hin).
      transitivity (Some (buildProps_proxy k' x)); [apply (Hall _ _ Hin)|].
      symmetry. apply elem_of_list_to_map_1; [by rewrite Hfst|].
      apply list_elem_of_fmap. by exists (k', x).
    + rewrite (proj1 (not_elem_of_dom _ _)) by (rewrite Hdom, elem_of_list_to_set; done).
      symmetry. apply not_elem_of_list_to_map_1. by rewrite Hfst.
Qed.

(** X7. When the caller returns, the send of every property worker has been
    taken: each has written its entry, which is in the returned map, and only
    its deferred [Unlock] may be left to run, so that [plock] is held exactly
    when one worker is past its send and has not unlocked yet.  No step
    taken after the return changes the value returned.  With well-formed
    slots no coordinator is left behind either: each has received all its
    children and signalled. *)
Theorem workers_done_at_return (schema : low.Schema.t) (sched : list Action) (st : State) :
  run schema sched (init schema) = Some st ->
  pc st = AtReturn ->
  (forall n w, workers st !! n = Some w ->
     (prop_status w = PropSent \/ prop_status w = PropReturned)
     /\ is_Some (Schema.Properties (s st) !! prop_key w))
  /\ (plock st = true
      <-> exists n w, workers st !! n = Some w /\ prop_status w = PropSent)
  /\ (forall sched' st', run schema (sched ++ sched') (init schema) = Some st' ->
        pc st' = AtReturn /\ s st' = s st)
  /\ (slots_wf schema ->
      forall sl c, slot_get sl (coords st) = Some c ->
        signalled c = true /\ bChan c = [] /\ j c = totalSchemas c).
Proof.
  intros Hrun Hpc. pose proof (Inv2_reachable _ _ Hrun) as [HL Hm _ _ Hwr].
  destruct HL as [HI Hl _].
  assert (forall n w, workers st !! n = Some w -> sent w = 1) as Hws.
  { intros n w Hw. eapply past_barrier_sent; [exact HI|by left|exact Hw]. }
  split; [|split; [|split]].
  - intros n w Hw. pose proof (Hws n w Hw) as Hsent. split; [by apply sent_status|].
    destruct (inv_scalars HI) as [_ ->].
    apply (Hwr n w Hw). by apply sent_written.
  - split.
    + intros Hk. destruct (Hl Hk) as (n & w & Hw & [Hst|Hst]); [|by exists n, w].
      pose proof (Hws n w Hw) as Hsent. unfold sent in Hsent. by rewrite Hst in Hsent.
    + intros (n & w & Hw & Hst). unfold mutex_inv in Hm.
      pose proof (count_holding_pos _ _ Hw (or_intror Hst)).
      destruct (plock st); [done|lia].
  - intros sched' st' Hrun'. rewrite (run_app _ _ sched' _ Hrun) in Hrun'.
    edestruct returned_stable as (Hpc' & Hs' & _); [exact HI|exact Hpc|exact Hrun'|].
    done.
  - intros Hwf sl c Hc.
    pose proof (sig_eq_length sl Hwf HI (or_introl Hpc)) as Hsig.
    pose proof (inv_coord HI sl) as Hci. unfold coord_inv in Hci.
    rewrite Hc in Hci, Hsig. destruct Hci as (He & Htot & Hj & Hp & Hs). simpl in Hsig.
    destruct (signalled c) eqn:Hsg.
    + specialize (Hs eq_refl). split; [done|]. split; [|done].
      by destruct (collected_slot sl HI Hc ltac:(lia)) as (? & _).
    + destruct (slot_in sl schema) eqn:Hin; [|done].
      apply Hwf in Hin. congruence.
Qed.

(** X8. With well-formed slots of at most one element each, the only
    states in which nothing can move are those where the caller has
    returned: no schedule leads to a deadlock. *)
Theorem stuck_only_at_return (schema : low.Schema.t) (sched : list Action) (st : State) :
  slots_wf schema -> at_most_one_each schema ->
  run schema sched (init schema) = Some st ->
  (forall a, step schema a st = None) ->
  pc st = AtReturn.
Proof.
  intros Hwf Hone Hrun Hstuck.
  destruct (decide (pc st = AtReturn)) as [|Hpc]; [done|].
  destruct (progress Hwf Hone (Live_reachable _ _ Hrun) Hpc) as (a & st' & Hstep).
  by rewrite Hstuck in Hstep.
Qed.

(** X10. No run goes on for ever: a schedule that the system can follow has
    at most [12 + totalChildren + 3 * totalProps] steps, three of them for
    each property worker (its locked write, its signal, its unlock). *)
Theorem run_bounded (schema : low.Schema.t) (sched : list Action) (st : State) :
  run schema sched (init schema) = Some st ->
  length sched <= 12 + totalChildren schema + 3 * totalProps schema.
Proof.
  intros Hrun. pose proof (run_length _ _ _ Hrun) as Hlen.
  assert (remaining schema (init schema)
          = 12 + totalChildren schema + 3 * totalProps schema) as Hinit.
  { unfold remaining, coords_work. simpl. lia. }
  lia.
Qed.

(** X11. A slot's slice only grows at its end: what it holds at some point
    of a run is a prefix of what it holds at any later point. *)
Theorem slices_only_grow (schema : low.Schema.t) (sched sched' : list Action)
    (st st' : State) (sl : Slot) :
  run schema sched (init schema) = Some st ->
  run schema (sched ++ sched') (init schema) = Some st' ->
  slot_get sl (locals st) `prefix_of` slot_get sl (locals st').
Proof.
  intros Hrun Hrun'. rewrite (run_app _ _ sched' _ Hrun) in Hrun'.
  by eapply locals_prefix_run.
Qed.

(** X12. In the [allDone] loop the caller's counters are the signals really
    taken: [completeChildren] is the number of coordinators that have
    signalled, at most one per slot that is not empty (so at most 5), and
    [completedProps] the number of workers whose send has been taken, at
    most one per entry; and the exit test has failed for them. *)
Theorem barrier_counters (schema : low.Schema.t) (sched : list Action) (st : State)
    (completeChildren completedProps : nat) :
  run schema sched (init schema) = Some st ->
  pc st = AtBarrier completeChildren completedProps ->
  completeChildren = count_signalled (coords st)
  /\ completeChildren <= launched_slots schema /\ launched_slots schema <= 5
  /\ completedProps = count_sent (workers st)
  /\ completedProps <= totalProps schema
  /\ allDone schema completeChildren completedProps = false.
Proof.
  intros Hrun Hpc. pose proof (Live_reachable _ _ Hrun) as [HI _ Hp].
  pose proof (inv_barrier HI) as Hb. unfold barrier_inv in Hb. rewrite Hpc in Hb.
  destruct Hb as [Hcc Hcp].
  pose proof (count_signalled_le_launched HI).
  pose proof (started_le_1 schema SlotAllOf). pose proof (started_le_1 schema SlotOneOf).
  pose proof (started_le_1 schema SlotAnyOf). pose proof (started_le_1 schema SlotItems).
  pose proof (started_le_1 schema SlotNot).
  pose proof (count_sent_le (workers st)) as Hle.
  pose proof (inv_workers HI) as Hwi. unfold workers_inv in Hwi.
  rewrite Hpc in Hwi. specialize (Hwi ltac:(done)).
  assert (length (workers st) = totalProps schema) as Hlen.
  { unfold totalProps.
    change (NodeReference.Value (low.Schema.Properties schema)) with (entries schema).
    by rewrite <- Hwi, length_map. }
  repeat split; try done; try (unfold launched_slots; lia); try lia.
  by apply Hp.
Qed.

(** X13. When more coordinators are started than the caller counts
    elements (a slot that is not empty and holds no element), a call that
    returns leaves a coordinator behind that has not signalled, and in no
    state that follows does it signal: it stays blocked, at the latest on
    [doneChan <- true]. *)
Theorem coordinator_left_blocked (schema : low.Schema.t) (sched : list Action) (st : State) :
  totalChildren schema < launched_slots schema ->
  run schema sched (init schema) = Some st ->
  pc st = AtReturn ->
  exists sl c,
    slot_get sl (coords st) = Some c /\ signalled c = false
    /\ forall sched' st', run schema (sched ++ sched') (init schema) = Some st' ->
         exists c', slot_get sl (coords st') = Some c' /\ signalled c' = false.
Proof.
  intros Hlt Hrun Hpc. pose proof (Inv_reachable _ _ Hrun) as HI.
  edestruct unsignalled_at_return as (sl & c & Hsl & Hsg); [exact HI|exact Hlt|exact Hpc|].
  exists sl, c. split; [done|]. split; [done|].
  intros sched' st' Hrun'. rewrite (run_app _ _ sched' _ Hrun) in Hrun'.
  edestruct unsignalled_after_return as [_ ?]; [exact Hpc|exact Hsl|exact Hsg|exact Hrun'|].
  done.
Qed.

(** X14. The slots share no state with each other or with the property
    workers: a receive by the coordinator of one slot, followed by a step of
    another slot's coordinator or of a property worker, leads to the same
    state as the two steps taken in the other order.  The steps of a
    property worker are its locked write, its signal and its unlock. *)
Theorem slots_are_independent (schema : low.Schema.t) (sl : Slot) (n : nat) (a : Action)
    (st st1 st2 : State) :
  independent sl a ->
  step schema (Recv sl n) st = Some st1 ->
  step schema a st1 = Some st2 ->
  exists st1', step schema a st = Some st1' /\ step schema (Recv sl n) st1' = Some st2.
Proof.
  intros Hind H1 H2.
  apply step_Recv in H1 as (c & t & Hsl & Hlt & Ht & ->).
  destruct a as [|sl' m|sl'|m|m| |m|v]; simpl in Hind; try done.
  - (* another slot receives *)
    apply step_Recv in H2 as (c' & t' & Hsl' & Hlt' & Ht' & ->). simpl in Hsl'.
    rewrite slot_get_set_ne in Hsl' by done.
    eexists. split; [by apply Recv_enabled|].
    erewrite Recv_enabled; [|simpl; rewrite slot_get_set_ne by done; exact Hsl|done|done].
    simpl. rewrite !slot_get_set_ne by congruence.
    f_equal. f_equal; by apply slot_set_comm.
  - (* another slot signals *)
    apply step_Signal in H2 as (c' & cc & cp & Hsl' & Hpc & Hge & Hsg & ->).
    simpl in Hsl', Hpc. rewrite slot_get_set_ne in Hsl' by done.
    eexists. split.
    + unfold step. rewrite Hsl', Hpc.
      assert ((j c' <? totalSchemas c') = false) as -> by (by apply Nat.ltb_ge).
      rewrite Hsg. simpl. reflexivity.
    + erewrite Recv_enabled; [|simpl; rewrite slot_get_set_ne by done; exact Hsl|done|done].
      simpl. f_equal. f_equal. by apply slot_set_comm.
  - (* a worker takes the lock and writes *)
    apply step_Lock in H2 as (w & Hl & Hw & Hst & ->). simpl in Hl, Hw.
    eexists. split.
    + unfold step. rewrite Hl, Hw, Hst. reflexivity.
    + by erewrite Recv_enabled.
  - (* a worker signals *)
    apply step_PropSignal in H2 as (w & cc & cp & Hw & Hpc & Hst & ->). simpl in Hw, Hpc.
    eexists. split.
    + unfold step. rewrite Hw, Hpc, Hst. reflexivity.
    + by erewrite Recv_enabled.
  - (* a worker unlocks *)
    apply step_Unlock in H2 as (w & Hw & Hst & ->). simpl in Hw.
    eexists. split.
    + unfold step. rewrite Hw, Hst. reflexivity.
    + by erewrite Recv_enabled.
Qed.

(** X15. With well-formed slots no trailing assignment races with a
    coordinator: past the loop the caller has taken the signal of every
    coordinator, each of which has received all its children, so that every
    append is ordered before the caller's read of the slice and the racy
    read is enabled in no reachable state. *)
Theorem slices_read_after_signal (schema : low.Schema.t) (sched : list Action)
    (st : State) :
  slots_wf schema ->
  run schema sched (init schema) = Some st ->
  (forall n, pc st = AtAssign n ->
     forall sl c, slot_get sl (coords st) = Some c ->
       signalled c = true /\ bChan c = [] /\ j c = totalSchemas c)
  /\ forall v, step schema (RacyAssign v) st = None.
Proof.
  intros Hwf Hrun. pose proof (Inv_reachable _ _ Hrun) as HI. split.
  - intros n Hpc sl c Hc.
    assert (pc st = AtReturn \/ exists m, pc st = AtAssign m) as Hpast by eauto.
    pose proof (sig_eq_length sl Hwf HI Hpast) as Hsig.
    pose proof (inv_coord HI sl) as Hci. unfold coord_inv in Hci.
    rewrite Hc in Hci, Hsig. destruct Hci as (He & Htot & Hj & Hp & Hs). simpl in Hsig.
    destruct (signalled c) eqn:Hsg.
    + specialize (Hs eq_refl). split; [done|]. split; [|done].
      by destruct (collected_slot sl HI Hc ltac:(lia)) as (? & _).
    + destruct (slot_in sl schema) eqn:Hin; [|done].
      apply Hwf in Hin. congruence.
  - intros v. destruct (step schema (RacyAssign v) st) as [st'|] eqn:Hstep; [|done].
    apply step_RacyAssign_unordered in Hstep as (n & Hpc & Hun).
    assert (unordered (slot_get (assigned n) (coords st)) = false) as Hord
      by (eapply wf_synchronised; [exact Hwf|exact HI|eauto]).
    congruence.
Qed.

(** X16. The receive loop of a coordinator can always be completed, whatever
    the node and whatever has been scheduled so far: as long as [j] is short
    of [totalSchemas] a child is blocked on [bChan].  All along the slice
    holds proxies of elements of its own slot, each element at most once;
    when the loop is over no child is left blocked and the slice has as many
    elements as the slot. *)
Theorem coordinator_collects_all (schema : low.Schema.t) (sched : list Action)
    (st : State) (sl : Slot) (c : Coordinator) :
  run schema sched (init schema) = Some st ->
  slot_get sl (coords st) = Some c ->
  (exists sched' st' c',
     run schema (sched ++ sched') (init schema) = Some st'
     /\ slot_get sl (coords st') = Some c' /\ totalSchemas c' <= j c')
  /\ (j c < totalSchemas c -> exists t, bChan c !! 0 = Some t)
  /\ slot_get sl (locals st) ⊆+ map buildSchemaChild (slot_in sl schema)
  /\ (totalSchemas c <= j c ->
      bChan c = [] /\ length (slot_get sl (locals st)) = length (slot_in sl schema)).
Proof.
  intros Hrun Hc. pose proof (Inv_reachable _ _ Hrun) as HI. split; [|split; [|split]].
  - destruct (can_collect sl HI Hc) as (sched' & st' & c' & Hrun' & Hc' & Hge).
    exists sched', st', c'. split; [|done]. by rewrite (run_app _ _ sched' _ Hrun).
  - intros Hlt. pose proof (inv_coord HI sl) as Hci. unfold coord_inv in Hci.
    rewrite Hc in Hci. destruct Hci as (_ & Htot & Hj & Hp & _).
    apply Permutation_length in Hp. rewrite length_app, length_map in Hp.
    destruct (bChan c) as [|t b]; [simpl in Hp; lia|]. by exists t.
  - apply (locals_sub sl HI).
  - intros Hge. by destruct (collected_slot _ HI Hc Hge) as (? & ? & _).
Qed.

End Further.

(** * The further properties on concrete nodes *)

Section FurtherConcrete.

#[local] Existing Instance nil_nodes.

Lemma singles_one_each : at_most_one_each singles.
Proof. intros sl. destruct sl; vm_compute; lia. Qed.

Lemma GoLow_returns_input_witness :
  match NewSchema singles singles_sched with
  | Some v => GoLow v = singles
  | None => False
  end.
Proof.
  destruct (NewSchema singles singles_sched) as [v|] eqn:E.
  - exact (GoLow_returns_input singles singles_sched v E).
  - vm_compute in E. discriminate.
Defined.

Lemma leaf_objects_guarded_witness :
  match NewSchema singles singles_sched with
  | Some v => Schema.Discriminator v = None /\ Schema.ExternalDocs v = Some tt
  | None => False
  end.
Proof.
  destruct (NewSchema singles singles_sched) as [v|] eqn:E.
  - destruct (leaf_objects_guarded singles singles_sched v E) as (Hd & _ & He & _).
    split; [exact Hd|exact He].
  - vm_compute in E. discriminate.
Defined.

Lemma plock_mutual_exclusion_witness :
  match run singles [Launch; Lock 1; PropSignal 1] (init singles) with
  | Some st =>
      plock st = true <-> exists n w, workers st !! n = Some w /\ holds_lock w
  | None => False
  end.
Proof.
  destruct (run singles [Launch; Lock 1; PropSignal 1] (init singles)) as [st|] eqn:E.
  - exact (proj2 (plock_mutual_exclusion singles [Launch; Lock 1; PropSignal 1] st E)).
  - vm_compute in E. discriminate.
Defined.

Lemma fields_of_synchronised_slots_witness :
  match run pair_hollow pair_reversed (init pair_hollow) with
  | Some st =>
      Permutation (slot_out SlotAllOf (s st))
                  (map buildSchemaChild (slot_in SlotAllOf pair_hollow))
  | None => False
  end.
Proof.
  destruct (run pair_hollow pair_reversed (init pair_hollow)) as [st|] eqn:E.
  - destruct (slot_get SlotAllOf (coords st)) as [c|] eqn:Hc.
    + refine (proj1 (proj2 (proj2 (proj2 (proj2
                (fields_of_synchronised_slots pair_hollow pair_reversed st SlotAllOf E _)))
                c Hc _))).
      * vm_compute in E. injection E as <-. reflexivity.
      * vm_compute in E. injection E as <-. vm_compute in Hc. injection Hc as <-.
        reflexivity.
    + vm_compute in E. injection E as <-. vm_compute in Hc. discriminate.
  - vm_compute in E. discriminate.
Defined.

Lemma properties_keys_and_values_witness :
  match NewSchema singles singles_sched with
  | Some v => size (Schema.Properties v) <= 2
  | None => False
  end.
Proof.
  destruct (NewSchema singles singles_sched) as [v|] eqn:E.
  - exact (proj2 (proj2 (properties_keys_and_values singles singles_sched v E))).
  - vm_compute in E. discriminate.
Defined.

Lemma returns_materialized_witness :
  match NewSchema singles singles_sched with
  | Some v => v = materialized singles
  | None => False
  end.
Proof.
  destruct (NewSchema singles singles_sched) as [v|] eqn:E.
  - exact (returns_materialized singles singles_sched v singles_wf singles_keys E).
  - vm_compute in E. discriminate.
Defined.

Lemma workers_done_at_return_witness :
  match run singles singles_early (init singles) with
  | Some st =>
      plock st = true
      <-> exists n w, workers st !! n = Some w /\ prop_status w = PropSent
  | None => False
  end.
Proof.
  destruct (run singles singles_early (init singles)) as [st|] eqn:E.
  - refine (proj1 (proj2 (workers_done_at_return singles singles_early st E _))).
    vm_compute in E. injection E as <-. reflexivity.
  - vm_compute in E. discriminate.
Defined.

Lemma stuck_only_at_return_witness :
  match run singles singles_sched (init singles) with
  | Some st => pc st = AtReturn
  | None => False
  end.
Proof.
  destruct (run singles singles_sched (init singles)) as [st|] eqn:E.
  - apply (stuck_only_at_return singles singles_sched st singles_wf singles_one_each E).
    vm_compute in E. injection E as <-.
    intros [|sl n|sl|n|n| |n|v]; try reflexivity.
    + by destruct sl.
    + by destruct sl.
    + by destruct n as [|[|n]].
    + by destruct n as [|[|n]].
    + by destruct n as [|[|n]].
  - vm_compute in E. discriminate.
Defined.

Lemma NewSchema_returns_iff_witness :
  (exists sched v, NewSchema singles sched = Some v) <-> at_most_one_each singles.
Proof. exact (NewSchema_returns_iff singles singles_wf). Defined.

Lemma run_bounded_witness :
  length singles_sched <= 12 + totalChildren singles + 3 * totalProps singles.
Proof.
  destruct (run singles singles_sched (init singles)) as [st|] eqn:E.
  - exact (run_bounded singles singles_sched st E).
  - vm_compute in E. discriminate.
Defined.

Lemma slices_only_grow_witness :
  match run two_allOf [Launch; Recv SlotAllOf 1] (init two_allOf),
        run two_allOf ([Launch; Recv SlotAllOf 1] ++ [Recv SlotAllOf 0]) (init two_allOf)
  with
  | Some st, Some st' =>
      slot_get SlotAllOf (locals st) `prefix_of` slot_get SlotAllOf (locals st')
  | _, _ => False
  end.
Proof.
  destruct (run two_allOf [Launch; Recv SlotAllOf 1] (init two_allOf)) as [st|] eqn:E.
  - destruct (run two_allOf ([Launch; Recv SlotAllOf 1] ++ [Recv SlotAllOf 0])
                (init two_allOf)) as [st'|] eqn:E'.
    + exact (slices_only_grow two_allOf _ _ st st' SlotAllOf E E').
    + vm_compute in E'. discriminate.
  - vm_compute in E. discriminate.
Defined.

Lemma barrier_counters_witness :
  match run singles [Launch; Recv SlotAllOf 0; Signal SlotAllOf] (init singles) with
  | Some st => 1 = count_signalled (coords st)
  | None => False
  end.
Proof.
  destruct (run singles [Launch; Recv SlotAllOf 0; Signal SlotAllOf] (init singles))
    as [st|] eqn:E.
  - refine (proj1 (barrier_counters singles _ st 1 0 E _)).
    vm_compute in E. injection E as <-. reflexivity.
  - vm_compute in E. discriminate.
Defined.

Lemma coordinator_left_blocked_witness :
  match run hollow [Launch; Signal SlotAnyOf; Assign; Assign; Assign; Assign; Assign]
            (init hollow) with
  | Some st =>
      exists sl c, slot_get sl (coords st) = Some c /\ signalled c = false
  | None => False
  end.
Proof.
  destruct (run hollow [Launch; Signal SlotAnyOf; Assign; Assign; Assign; Assign; Assign]
              (init hollow)) as [st|] eqn:E.
  - destruct (coordinator_left_blocked hollow _ st ltac:(vm_compute; lia) E)
      as (sl & c & Hsl & Hsg & _).
    + vm_compute in E. injection E as <-. reflexivity.
    + by exists sl, c.
  - vm_compute in E. discriminate.
Defined.

Lemma slots_are_independent_witness :
  match step singles Launch (init singles) with
  | Some st =>
      match step singles (Recv SlotAllOf 0) st with
      | Some st1 =>
          match step singles (Recv SlotAnyOf 0) st1 with
          | Some st2 =>
              exists st1', step singles (Recv SlotAnyOf 0) st = Some st1'
                           /\ step singles (Recv SlotAllOf 0) st1' = Some st2
          | None => False
          end
      | None => False
      end
  | None => False
  end.
Proof.
  destruct (step singles Launch (init singles)) as [st|] eqn:E0;
    [|vm_compute in E0; discriminate].
  destruct (step singles (Recv SlotAllOf 0) st) as [st1|] eqn:E1.
  - destruct (step singles (Recv SlotAnyOf 0) st1) as [st2|] eqn:E2.
    + apply (slots_are_independent singles SlotAllOf 0 (Recv SlotAnyOf 0) st st1 st2);
        [done|exact E1|exact E2].
    + vm_compute in E0. injection E0 as <-. vm_compute in E1. injection E1 as <-.
      vm_compute in E2. discriminate.
  - vm_compute in E0. injection E0 as <-. vm_compute in E1. discriminate.
Defined.

Lemma slices_read_after_signal_witness :
  match run singles (take 11 singles_sched) (init singles) with
  | Some st => pc st = AtAssign 0 /\ step singles (RacyAssign []) st = None
  | None => False
  end.
Proof.
  destruct (run singles (take 11 singles_sched) (init singles)) as [st|] eqn:E.
  - split.
    + vm_compute in E. injection E as <-. reflexivity.
    + exact (proj2 (slices_read_after_signal singles (take 11 singles_sched) st
                      singles_wf E) []).
  - vm_compute in E. discriminate.
Defined.

(** Without well-formed slots the race is there: the caller of [hollow],
    released by the coordinator of [AnyOf], reads [allOf] having taken no
    signal from the coordinator that appends to it. *)
Remark hollow_read_races :
  exists st,
    run hollow [Launch; Signal SlotAnyOf; Assign; Assign] (init hollow) = Some st
    /\ pc st = AtAssign 2
    /\ unordered (slot_get SlotAllOf (coords st)) = true
    /\ forall v, step hollow (RacyAssign v) st <> None.
Proof.
  eexists. split; [vm_compute; reflexivity|]. split; [reflexivity|].
  split; [reflexivity|]. intros v. by vm_compute.
Qed.

Lemma coordinator_collects_all_witness :
  match run two_allOf [Launch; Recv SlotAllOf 1; Recv SlotAllOf 0] (init two_allOf) with
  | Some st => length (slot_get SlotAllOf (locals st)) = 2
  | None => False
  end.
Proof.
  destruct (run two_allOf [Launch; Recv SlotAllOf 1; Recv SlotAllOf 0] (init two_allOf))
    as [st|] eqn:E.
  - destruct (slot_get SlotAllOf (coords st)) as [c|] eqn:Hc.
    + refine (proj2 (proj2 (proj2 (proj2
                (coordinator_collects_all two_allOf _ st SlotAllOf c E Hc))) _)).
      vm_compute in E. injection E as <-. vm_compute in Hc. injection Hc as <-.
      simpl. lia.
    + vm_compute in E. injection E as <-. vm_compute in Hc. discriminate.
  - vm_compute in E. discriminate.
Defined.

End FurtherConcrete.
